(** * pints.js: geo math, target resolution and refresh policy

    A shallow embedding of [src/pints.js].

    Numbers.  A JavaScript number is modelled as an exact real number:
    [+], [-], [*], [/] are the field operations of [R], [Math.cos],
    [Math.sin], [Math.asin], [Math.sqrt] are the real functions of the same
    name, [Math.PI] is [PI].  Rounding of binary64 arithmetic, [NaN] and the
    infinities are outside the model.  The operators whose result depends on
    more than the field structure ([%], [Math.atan2], [toFixed]) are written
    out below after their ECMAScript definitions. *)

From Stdlib Require Import Reals Lra Lia ZArith List Sorted Permutation String Ascii Bool.
Import ListNotations.

Open Scope R_scope.

(** ** JavaScript number operations *)

Module JsNumber.

(** Truncation toward zero: the integer with the sign of [x] whose magnitude
    is as large as possible without exceeding the magnitude of [x]. *)
Definition trunc (x : R) : Z :=
  if Rle_dec 0 x then Int_part x else (- Int_part (- x))%Z.

(** [n % d] (Number::remainder): [n - d * q] where [q] is the quotient
    [n / d] truncated toward zero, so the result takes the sign of the
    dividend. *)
Definition rem (n d : R) : R := n - d * IZR (trunc (n / d)).

(** [Math.atan2(y, x)]: the angle of the point [(x, y)], in [(-PI, PI]];
    [Math.atan2(0, 0)] is [0]. *)
Definition atan2 (y x : R) : R :=
  if Rlt_dec 0 x then atan (y / x)
  else if Rlt_dec x 0 then
         if Rle_dec 0 y then atan (y / x) + PI else atan (y / x) - PI
  else if Rlt_dec 0 y then PI / 2
  else if Rlt_dec y 0 then - (PI / 2)
  else 0.

End JsNumber.

(** ** Geo math (lines 9-35) *)

Definition degToRad (deg : R) : R := deg * PI / 180.

Definition haversineFunc (theta : R) : R := (1 - cos (degToRad theta)) / 2.

Definition haversineDistance (lat1 lon1 lat2 lon2 : R) : R :=
  let haversineGcd :=
    haversineFunc (lat2 - lat1) +
    (cos (degToRad lat1) * cos (degToRad lat2) * haversineFunc (lon2 - lon1)) in
  let gcd := asin (sqrt haversineGcd) in
  let radiusMeters := 6371000 in
  2 * radiusMeters * gcd.

Definition bearingBetween (lat1 lon1 lat2 lon2 : R) : R :=
  let y := sin (degToRad (lon2 - lon1)) * cos (degToRad lat2) in
  let x := cos (degToRad lat1) * sin (degToRad lat2) -
           sin (degToRad lat1) * cos (degToRad lat2) * cos (degToRad (lon2 - lon1)) in
  let theta := JsNumber.atan2 y x in
  let bearing := JsNumber.rem (theta * 180 / PI + 360) 360 in
  bearing.

(** ** Number formatting (Number.prototype.toFixed) *)

Module JsFormat.

Open Scope Z_scope.
Open Scope string_scope.

Definition digitChar (d : Z) : ascii := ascii_of_nat (48 + Z.to_nat d)%nat.

(** Decimal digits of a non-negative integer, most significant first; the
    fuel bounds the number of digits. *)
Fixpoint decimalFuel (fuel : nat) (n : Z) : string :=
  match fuel with
  | O => ""
  | S fuel' =>
      if (n <? 10)%Z then String (digitChar n) ""
      else decimalFuel fuel' (n / 10)%Z ++ String (digitChar (n mod 10)%Z) ""
  end.

Definition decimal (n : Z) : string :=
  decimalFuel (S (Z.to_nat (Z.log2 n))) n.

Fixpoint zeros (k : nat) : string :=
  match k with
  | O => ""
  | S k' => String "0"%char (zeros k')
  end.

(** Steps 9-11 of toFixed: the digits of [n], left-padded with zeros to at
    least [f + 1] characters, with a point before the last [f] of them. *)
Definition formatFixed (n : Z) (f : nat) : string :=
  let m := decimal n in
  match f with
  | O => m
  | S _ =>
      let k := String.length m in
      let m := if (k <=? f)%nat then zeros (f + 1 - k)%nat ++ m else m in
      let k := String.length m in
      substring 0 (k - f)%nat m ++ "." ++ substring (k - f)%nat f m
  end.

Close Scope string_scope.
Close Scope Z_scope.

(** [x.toFixed(f)] for [0 <= x]: [n] is the integer for which [n / 10^f - x]
    is closest to zero, the larger one on a tie.  For [x >= 10^21] the
    method falls back to Number::toString, which is outside this model
    ([None]). *)
Definition toFixedAbs (x : R) (f : nat) : option string :=
  if Rle_dec (10 ^ 21) x then None
  else Some (formatFixed (Int_part (x * 10 ^ f + / 2)) f).

Definition toFixed (x : R) (f : nat) : option string :=
  if Rlt_dec x 0 then option_map (append "-") (toFixedAbs (- x) f)
  else toFixedAbs x f.

End JsFormat.

(** [distanceStr] (lines 248-257). *)
Definition distanceStr (meters : R) : option string :=
  if Rlt_dec 1000 meters then
    option_map (fun distanceStr => distanceStr ++ "km")%string
               (JsFormat.toFixed (meters / 1000) 2)
  else
    option_map (fun distanceStr => distanceStr ++ "m")%string
               (JsFormat.toFixed meters 0).


(** ** Data model *)

(** The values that occur as the [id] of a search record and as the stored
    selection: a JSON number or string, [undefined] for a record without an
    [id] member, and [null], the selection before any choice is made. *)
Inductive JsId : Type :=
  | IdUndefined
  | IdNull
  | IdNum (n : Z)
  | IdStr (s : string).

(** ToBoolean, as applied by [if (this.selectedPubId)]. *)
Definition truthy (v : JsId) : bool :=
  match v with
  | IdUndefined => false
  | IdNull => false
  | IdNum n => negb (n =? 0)%Z
  | IdStr s => negb (s =? "")%string
  end.

(** [a === b]. *)
Definition strictEq (a b : JsId) : bool :=
  match a, b with
  | IdUndefined, IdUndefined => true
  | IdNull, IdNull => true
  | IdNum n, IdNum m => (n =? m)%Z
  | IdStr s, IdStr t => (s =? t)%string
  | _, _ => false
  end.

(** ToNumber of a field that holds a number or [null]. *)
Definition toNumber (v : option R) : R :=
  match v with
  | Some x => x
  | None => 0
  end.

(** [position.coords]. *)
Record Coordinates : Type := {
  latitude : R;
  longitude : R
}.

(** The objects built at lines 112-128. *)
Module Pub.
Record t : Type := {
  latitude : R;
  longitude : R;
  name : option string;
  id : JsId
}.
End Pub.

(** The search service's reply.  A record carries its point either directly
    or as the [center] of a bounding shape; [tags] may be missing, and so may
    the [name] inside it. *)
Module Overpass.
Inductive Geometry : Type :=
  | Node (lat lon : R)
  | Center (lat lon : R).

Record Element : Type := {
  geometry : Geometry;
  tags : option (option string);
  id : JsId
}.

Record Response : Type := {
  ok : bool;
  status : Z
}.

(** The outcome of [response.json()]: the body is not JSON, or it is a JSON
    value with or without an [elements] array. *)
Inductive Body : Type :=
  | Malformed
  | Json (elements : option (list Element)).
End Overpass.

(** What the page shows.  [statusPane] is [Some (level, message)] while the
    pane is displayed; the other parts are [None] until first written.  Of
    the compass only its rotation is kept, of an entry of the list its radio
    button, label and distance; link targets and the [display] style of the
    other elements are left out. *)
Record ListItem : Type := {
  item_checked : bool;
  item_label : string;
  item_distance : option string;
  item_pub : Pub.t
}.

Record Dom : Type := {
  statusPane : option (string * string);
  compassRotation : option R;
  distanceDiv : option string;
  nameDiv : option string;
  pubListElem : option (list ListItem)
}.

(** The fields of [Application] (lines 49-54).  [_pendingFetch] is [true]
    while the field holds a promise and [false] while it holds [null]. *)
Record Application : Type := {
  currentLocation : option Coordinates;
  currentHeading : option R;
  nearbyPubs : option (list Pub.t);
  selectedPubId : JsId;
  _pendingFetch : bool;
  dom : Dom
}.

(** A call of [fetchNearbyPubs] that has not settled: suspended at
    [await fetch(...)] for a query around [origin], or at
    [await response.json()]. *)
Inductive FetchTask : Type :=
  | AwaitingResponse (origin : Coordinates)
  | AwaitingJson.

(** The application together with the fetches the environment still owes an
    answer to. *)
Record System : Type := {
  app : Application;
  inflight : list FetchTask
}.

Inductive Event : Type :=
  | Position (coords : Coordinates)
  | Orientation (alpha : R)
  | RadioChange (pub : Pub.t)
  | FetchSettled (i : nat) (response : option Overpass.Response)
  | JsonSettled (i : nat) (body : Overpass.Body).

(** ** Field updates *)

Definition withLocation (c : option Coordinates) (a : Application) : Application :=
  {| currentLocation := c; currentHeading := currentHeading a;
     nearbyPubs := nearbyPubs a; selectedPubId := selectedPubId a;
     _pendingFetch := _pendingFetch a; dom := dom a |}.

Definition withHeading (h : option R) (a : Application) : Application :=
  {| currentLocation := currentLocation a; currentHeading := h;
     nearbyPubs := nearbyPubs a; selectedPubId := selectedPubId a;
     _pendingFetch := _pendingFetch a; dom := dom a |}.

Definition withPubs (p : option (list Pub.t)) (a : Application) : Application :=
  {| currentLocation := currentLocation a; currentHeading := currentHeading a;
     nearbyPubs := p; selectedPubId := selectedPubId a;
     _pendingFetch := _pendingFetch a; dom := dom a |}.

Definition withSelected (i : JsId) (a : Application) : Application :=
  {| currentLocation := currentLocation a; currentHeading := currentHeading a;
     nearbyPubs := nearbyPubs a; selectedPubId := i;
     _pendingFetch := _pendingFetch a; dom := dom a |}.

Definition withPending (b : bool) (a : Application) : Application :=
  {| currentLocation := currentLocation a; currentHeading := currentHeading a;
     nearbyPubs := nearbyPubs a; selectedPubId := selectedPubId a;
     _pendingFetch := b; dom := dom a |}.

Definition withDom (d : Dom) (a : Application) : Application :=
  {| currentLocation := currentLocation a; currentHeading := currentHeading a;
     nearbyPubs := nearbyPubs a; selectedPubId := selectedPubId a;
     _pendingFetch := _pendingFetch a; dom := d |}.

(** ** Sorting *)

Section ToSorted.
Context {A : Type}.
Variable compareFn : A -> A -> R.

(** [x] goes in front of the first element it does not compare greater
    than, so it stays ahead of the elements it ties with. *)
Fixpoint insertSorted (x : A) (l : list A) : list A :=
  match l with
  | [] => [x]
  | y :: l' =>
      if Rle_dec (compareFn x y) 0 then x :: y :: l'
      else y :: insertSorted x l'
  end.

(** [Array.prototype.toSorted]: a new array, sorted by [compareFn], stable.
    For a consistent comparator the result does not depend on the sorting
    algorithm; insertion from the right is used here. *)
Fixpoint toSorted (l : list A) : list A :=
  match l with
  | [] => []
  | x :: l' => insertSorted x (toSorted l')
  end.
End ToSorted.

(** ** Methods of [Application] *)

(** [setStatus] with [fatal = false] (lines 281-293). *)
Definition setStatus (msg level : string) (a : Application) : Application :=
  withDom {| statusPane := Some (level, msg);
             compassRotation := compassRotation (dom a);
             distanceDiv := distanceDiv (dom a);
             nameDiv := nameDiv (dom a);
             pubListElem := pubListElem (dom a) |} a.

Definition clearStatus (a : Application) : Application :=
  withDom {| statusPane := None;
             compassRotation := compassRotation (dom a);
             distanceDiv := distanceDiv (dom a);
             nameDiv := nameDiv (dom a);
             pubListElem := pubListElem (dom a) |} a.

Definition setRotation (deg : R) (a : Application) : Application :=
  withDom {| statusPane := statusPane (dom a);
             compassRotation := Some deg;
             distanceDiv := distanceDiv (dom a);
             nameDiv := nameDiv (dom a);
             pubListElem := pubListElem (dom a) |} a.

Definition setDistance (meters : R) (a : Application) : Application :=
  withDom {| statusPane := statusPane (dom a);
             compassRotation := compassRotation (dom a);
             distanceDiv := distanceStr meters;
             nameDiv := nameDiv (dom a);
             pubListElem := pubListElem (dom a) |} a.

(** [pub.name ?? "Unnamed Pub"]. *)
Definition displayName (pub : Pub.t) : string :=
  match Pub.name pub with
  | Some n => n
  | None => "Unnamed Pub"%string
  end.

(** [setName]; the link target is not modelled. *)
Definition setName (closestPub : Pub.t) (a : Application) : Application :=
  withDom {| statusPane := statusPane (dom a);
             compassRotation := compassRotation (dom a);
             distanceDiv := distanceDiv (dom a);
             nameDiv := Some (displayName closestPub);
             pubListElem := pubListElem (dom a) |} a.

(** [#distanceSort] (lines 148-162), with [this.currentLocation] as [loc]. *)
Definition distanceSort (loc : Coordinates) (pub1 pub2 : Pub.t) : R :=
  let d1 := haversineDistance (latitude loc) (longitude loc)
                              (Pub.latitude pub1) (Pub.longitude pub1) in
  let d2 := haversineDistance (latitude loc) (longitude loc)
                              (Pub.latitude pub2) (Pub.longitude pub2) in
  d1 - d2.

(** [selectedPub] (lines 135-146), with [this.currentLocation],
    [this.nearbyPubs] and [this.selectedPubId] as arguments; [None] is the
    [undefined] that [pubs[0]] gives on an empty array. *)
Definition selectedPub (loc : Coordinates) (pubs : list Pub.t) (selectedPubId : JsId)
  : option Pub.t :=
  let found :=
    if truthy selectedPubId
    then find (fun p => strictEq (Pub.id p) selectedPubId) pubs
    else None in
  match found with
  | Some pub => Some pub
  | None =>
      let pubs := toSorted (distanceSort loc) pubs in
      hd_error pubs
  end.

(** The guard at lines 165 and 182: the location and a non-empty candidate
    list, when both are there. *)
Definition ready (a : Application) : option (Coordinates * list Pub.t) :=
  match currentLocation a, nearbyPubs a with
  | Some loc, Some (p :: ps) => Some (loc, p :: ps)
  | _, _ => None
  end.

(** Lines 175-176. *)
Definition shortRelBearing (bearing : R) (currentHeading : option R) : R :=
  let relBearing := JsNumber.rem (bearing - toNumber currentHeading + 360) 360 in
  JsNumber.rem (relBearing + 540) 360 - 180.

(** [updateBearingUI] (lines 164-179).  Under the guard [selectedPub] finds
    a pub; the [None] branch stands for the exception that reading a member
    of [undefined] would raise. *)
Definition updateBearingUI (a : Application) : Application :=
  match ready a with
  | None => a
  | Some (loc, pubs) =>
      let ourLat := latitude loc in
      let ourLon := longitude loc in
      match selectedPub loc pubs (selectedPubId a) with
      | None => a
      | Some closestPub =>
          let bearing := bearingBetween ourLat ourLon
                           (Pub.latitude closestPub) (Pub.longitude closestPub) in
          setRotation (shortRelBearing bearing (currentHeading a)) a
      end
  end.

(** [setNearbyPubsDisplay] (lines 203-246): one item per pub, nearest first. *)
Definition createLinkElem (loc : Coordinates) (selectedPubId : JsId) (pub : Pub.t)
  : ListItem :=
  let distance := haversineDistance (latitude loc) (longitude loc)
                                    (Pub.latitude pub) (Pub.longitude pub) in
  {| item_checked := strictEq selectedPubId (Pub.id pub);
     item_label := displayName pub;
     item_distance := distanceStr distance;
     item_pub := pub |}.

Definition setNearbyPubsDisplay (loc : Coordinates) (pubs : list Pub.t)
    (a : Application) : Application :=
  let pubs := toSorted (distanceSort loc) pubs in
  let linkElems := map (createLinkElem loc (selectedPubId a)) pubs in
  withDom {| statusPane := statusPane (dom a);
             compassRotation := compassRotation (dom a);
             distanceDiv := distanceDiv (dom a);
             nameDiv := nameDiv (dom a);
             pubListElem := Some linkElems |} a.

(** [updateUI] (lines 181-201). *)
Definition updateUI (a : Application) : Application :=
  match ready a with
  | None => a
  | Some (loc, pubs) =>
      let a := clearStatus a in
      let ourLat := latitude loc in
      let ourLon := longitude loc in
      match selectedPub loc pubs (selectedPubId a) with
      | None => a
      | Some closestPub =>
          let distance := haversineDistance ourLat ourLon
                            (Pub.latitude closestPub) (Pub.longitude closestPub) in
          let a := setDistance distance a in
          let a := setName closestPub a in
          let a := setNearbyPubsDisplay loc pubs a in
          updateBearingUI a
      end
  end.

(** [setHeading] (lines 70-74). *)
Definition setHeading (alpha : R) (a : Application) : Application :=
  updateBearingUI (withHeading (Some (360 - alpha)) a).

(** The test of lines 82-90: [false] when [setCoords] returns at line 88. *)
Definition movedEnough (oldCoords : option Coordinates) (cur : Coordinates) : bool :=
  match oldCoords with
  | None => true
  | Some old =>
      let distanceChange :=
        haversineDistance (latitude cur) (longitude cur)
                          (latitude old) (longitude old) in
      if Rlt_dec distanceChange 250 then false else true
  end.

(** [setCoords] (lines 76-94).  Calling [fetchNearbyPubs] runs it up to its
    first [await]: the status is set and the request for the current
    location goes out.  The promise of the call, with its [finally]
    callback attached, is then stored in [_pendingFetch]. *)
Definition setCoords (coords : Coordinates) (s : System) : System :=
  let oldCoords := currentLocation (app s) in
  let a := updateUI (withLocation (Some coords) (app s)) in
  if movedEnough oldCoords coords then
    if negb (_pendingFetch a) then
      let a := setStatus "Fetching nearby pubs" "info" a in
      {| app := withPending true a;
         inflight := inflight s ++ [AwaitingResponse coords] |}
    else {| app := a; inflight := inflight s |}
  else {| app := a; inflight := inflight s |}.

(** The record built from one search result (lines 112-128); [None] when
    [r["tags"]["name"]] reads a member of [undefined] and throws. *)
Definition toPub (r : Overpass.Element) : option Pub.t :=
  match Overpass.tags r with
  | None => None
  | Some name =>
      match Overpass.geometry r with
      | Overpass.Center lat lon =>
          Some {| Pub.latitude := lat; Pub.longitude := lon;
                  Pub.name := name; Pub.id := Overpass.id r |}
      | Overpass.Node lat lon =>
          Some {| Pub.latitude := lat; Pub.longitude := lon;
                  Pub.name := name; Pub.id := Overpass.id r |}
      end
  end.

(** [(json?.elements ?? []).map(...)]: all the records, or the exception of
    the first one that throws. *)
Fixpoint mapToPub (elements : list Overpass.Element) : option (list Pub.t) :=
  match elements with
  | [] => Some []
  | r :: rest =>
      match toPub r with
      | None => None
      | Some p =>
          match mapToPub rest with
          | None => None
          | Some ps => Some (p :: ps)
          end
      end
  end.

(** The callback of [finally] (line 92). *)
Definition onFinally (a : Application) : Application := withPending false a.

(** [fetchNearbyPubs] from [await fetch(...)] to its next suspension or its
    end (lines 106-111).  The result says whether the call goes on to await
    the body ([true]) or has settled. *)
Definition afterFetch (response : option Overpass.Response) (a : Application)
  : Application * bool :=
  match response with
  | None => (a, false)
  | Some response =>
      if negb (Overpass.ok response) then
        (setStatus ("Error fetching local pubs: " ++
                    JsFormat.decimal (Overpass.status response))%string
                   "error" a, false)
      else (a, true)
  end.

(** [fetchNearbyPubs] from [await response.json()] to its end
    (lines 111-133). *)
Definition afterJson (body : Overpass.Body) (a : Application) : Application :=
  match body with
  | Overpass.Malformed => a
  | Overpass.Json elements =>
      let elements := match elements with Some l => l | None => [] end in
      match mapToPub elements with
      | None => a
      | Some results => updateUI (withPubs (Some results) a)
      end
  end.

Definition removeAt {A : Type} (i : nat) (l : list A) : list A :=
  firstn i l ++ skipn (S i) l.

Definition replaceAt {A : Type} (i : nat) (x : A) (l : list A) : list A :=
  firstn i l ++ x :: skipn (S i) l.

(** ** The event loop *)

(** One event handler run to completion, together with the promise
    reactions it triggers.  [None]: the event cannot occur in this state
    (there is no such fetch waiting for it). *)
Definition handle (e : Event) (s : System) : option System :=
  match e with
  | Position coords => Some (setCoords coords s)
  | Orientation alpha =>
      Some {| app := setHeading alpha (app s); inflight := inflight s |}
  | RadioChange pub =>
      Some {| app := updateUI (withSelected (Pub.id pub) (app s));
              inflight := inflight s |}
  | FetchSettled i response =>
      match nth_error (inflight s) i with
      | Some (AwaitingResponse _) =>
          match afterFetch response (app s) with
          | (a, true) =>
              Some {| app := a; inflight := replaceAt i AwaitingJson (inflight s) |}
          | (a, false) =>
              Some {| app := onFinally a; inflight := removeAt i (inflight s) |}
          end
      | _ => None
      end
  | JsonSettled i body =>
      match nth_error (inflight s) i with
      | Some AwaitingJson =>
          Some {| app := onFinally (afterJson body (app s));
                  inflight := removeAt i (inflight s) |}
      | _ => None
      end
  end.

(** The state the constructor leaves (lines 38-60), on a page that has the
    five elements and a geolocation service. *)
Definition initialDom : Dom :=
  {| statusPane := Some ("info", "Fetching location")%string;
     compassRotation := None;
     distanceDiv := None;
     nameDiv := None;
     pubListElem := None |}.

Definition initialApp : Application :=
  {| currentLocation := None;
     currentHeading := None;
     nearbyPubs := None;
     selectedPubId := IdNull;
     _pendingFetch := false;
     dom := initialDom |}.

Definition initial : System := {| app := initialApp; inflight := [] |}.

Inductive reachable : System -> Prop :=
  | reachable_initial : reachable initial
  | reachable_step (s s' : System) (e : Event) :
      reachable s -> handle e s = Some s' -> reachable s'.

(** Running a list of events from a state. *)
Fixpoint run (events : list Event) (s : System) : option System :=
  match events with
  | [] => Some s
  | e :: rest =>
      match handle e s with
      | None => None
      | Some s' => run rest s'
      end
  end.

(** ** Notions used in the statements *)

(** The comparator that orders by a numeric key, as [#distanceSort] does. *)
Definition compareByKey {A : Type} (key : A -> R) (a b : A) : R := key a - key b.

(** [p] is the first element of [l] with the least key: the elements before
    it have a greater key, the elements after it none smaller. *)
Definition firstLeast {A : Type} (key : A -> R) (l : list A) (p : A) : Prop :=
  exists l1 l2 : list A,
    l = l1 ++ p :: l2 /\
    (forall q, In q l1 -> key p < key q) /\
    (forall q, In q l2 -> key p <= key q).

(** The distance from [loc] to a pub, as [#distanceSort] computes it. *)
Definition distanceFrom (loc : Coordinates) (pub : Pub.t) : R :=
  haversineDistance (latitude loc) (longitude loc)
                    (Pub.latitude pub) (Pub.longitude pub).

(** [p] is the nearest pub to [loc], the first one in the order of [pubs]
    among equally near ones. *)
Definition nearestFirst (loc : Coordinates) (pubs : list Pub.t) (p : Pub.t) : Prop :=
  firstLeast (distanceFrom loc) pubs p.

(** [setCoords] sends a request: one more fetch is owed an answer. *)
Definition startsFetch (coords : Coordinates) (s : System) : Prop :=
  inflight (setCoords coords s) = inflight s ++ [AwaitingResponse coords].

(** Two application states agree on every field other than [dom]. *)
Definition sameFields (a b : Application) : Prop :=
  currentLocation a = currentLocation b /\
  currentHeading a = currentHeading b /\
  nearbyPubs a = nearbyPubs b /\
  selectedPubId a = selectedPubId b /\
  _pendingFetch a = _pendingFetch b.

(** At most one fetch is owed an answer, and [_pendingFetch] holds a promise
    exactly while one is. *)
Definition singleFlight (s : System) : Prop :=
  (List.length (inflight s) <= 1)%nat /\
  (_pendingFetch (app s) = true <-> inflight s <> []).

(** The events on which a call of [fetchNearbyPubs] settles: the request
    fails, the response is not ok, or the body has been read. *)
Definition endsFetch (e : Event) : bool :=
  match e with
  | FetchSettled _ None => true
  | FetchSettled _ (Some response) => negb (Overpass.ok response)
  | JsonSettled _ _ => true
  | _ => false
  end.

(** ** Concrete data used in the examples *)

Module Example.

(** An observer on the equator and the prime meridian. *)
Definition origin : Coordinates := {| latitude := 0; longitude := 0 |}.

(** About 334 m north of [origin]. *)
Definition north334 : Coordinates := {| latitude := 3 / 1000; longitude := 0 |}.

(** About 111 m north of [origin]. *)
Definition north111 : Coordinates := {| latitude := 1 / 1000; longitude := 0 |}.

(** A pub one degree north of [origin], whose id is the number 0. *)
Definition farPub : Pub.t :=
  {| Pub.latitude := 1; Pub.longitude := 0;
     Pub.name := Some "The Far Pub"%string; Pub.id := IdNum 0 |}.

(** A pub at [origin]. *)
Definition nearPub : Pub.t :=
  {| Pub.latitude := 0; Pub.longitude := 0;
     Pub.name := None; Pub.id := IdNum 7 |}.

Definition pubs : list Pub.t := [farPub; nearPub].

(** An observer one degree north of [nearPub], before any heading event. *)
Definition facingSouthPub : Application :=
  {| currentLocation := Some {| latitude := 1; longitude := 0 |};
     currentHeading := None;
     nearbyPubs := Some [nearPub];
     selectedPubId := IdNull;
     _pendingFetch := false;
     dom := initialDom |}.

(** An observer at [origin] with both pubs fetched and none selected. *)
Definition atOrigin : Application :=
  {| currentLocation := Some origin;
     currentHeading := None;
     nearbyPubs := Some pubs;
     selectedPubId := IdNull;
     _pendingFetch := false;
     dom := initialDom |}.

Definition okResponse : Overpass.Response :=
  {| Overpass.ok := true; Overpass.status := 200 |}.

Definition serverError : Overpass.Response :=
  {| Overpass.ok := false; Overpass.status := 500 |}.

(** A search record without a [tags] member. *)
Definition untagged : Overpass.Element :=
  {| Overpass.geometry := Overpass.Node 0 0;
     Overpass.tags := None;
     Overpass.id := IdNum 7 |}.

End Example.

(** States of the system used in the examples. *)
Module Scenario.

(** After the first fix at [Example.origin]: a fetch is in flight. *)
Definition firstFix : System := setCoords Example.origin initial.

(** After that fetch has failed: no fetch is in flight. *)
Definition idle : System :=
  {| app := onFinally (app firstFix); inflight := [] |}.

(** After the response to the first fetch has arrived with status 200. *)
Definition awaitingBody : System :=
  {| app := app firstFix; inflight := [AwaitingJson] |}.

End Scenario.

(** ** Further notions used in the statements *)

(** The number a string of decimal digits stands for, read from the left. *)
Definition digitValue (c : ascii) : Z := Z.of_nat (nat_of_ascii c) - 48.

Fixpoint decimalValueFrom (acc : Z) (s : string) : Z :=
  match s with
  | EmptyString => acc
  | String c s' => decimalValueFrom (10 * acc + digitValue c) s'
  end.

Definition decimalValue (s : string) : Z := decimalValueFrom 0 s.

Definition isDigit (c : ascii) : bool :=
  ((48 <=? nat_of_ascii c) && (nat_of_ascii c <=? 57))%nat.

Fixpoint allDigits (s : string) : bool :=
  match s with
  | EmptyString => true
  | String c s' => isDigit c && allDigits s'
  end.

(** The point of a search record, wherever the record keeps it. *)
Definition pointOf (g : Overpass.Geometry) : R * R :=
  match g with
  | Overpass.Node lat lon => (lat, lon)
  | Overpass.Center lat lon => (lat, lon)
  end.

(** A pub is what [toPub] makes of a record: same point, name and id. *)
Definition pubOfElement (r : Overpass.Element) (p : Pub.t) : Prop :=
  (Pub.latitude p, Pub.longitude p) = pointOf (Overpass.geometry r) /\
  Overpass.tags r = Some (Pub.name p) /\
  Pub.id p = Overpass.id r.

(** The pubs of a list that are at distance [d] from [loc], in the order of
    the list. *)
Definition atDistance (loc : Coordinates) (d : R) (pubs : list Pub.t) : list Pub.t :=
  filter (fun p => if Req_dec_T (distanceFrom loc p) d then true else false) pubs.

(** ** Start of the application *)

(** The exceptions the constructor can raise: reading an identifier that is
    not bound, reading a member of [undefined], and the [Error] built at
    line 291 from the value of [error]. *)
Inductive JsError : Type :=
  | ReferenceError (identifier : string)
  | TypeError
  | ErrorWith (message : string).

(** The page the script is loaded into: the ids of its elements; the other
    names bound as global identifiers (by another script, or by named access
    to an element through its [name] attribute); the string that the value
    of a global name converts to; and whether [navigator] has a
    [geolocation] member. *)
Record Page : Type := {
  elementIds : list string;
  otherGlobals : list string;
  globalText : string -> string;
  hasGeolocation : bool
}.

(** [document.getElementById(elemId) !== null]. *)
Definition hasElement (page : Page) (elemId : string) : bool :=
  existsb (String.eqb elemId) (elementIds page).

(** An identifier that the script does not declare is bound when the page
    has an element with that id (named access on the window) or binds it
    otherwise. *)
Definition resolves (page : Page) (identifier : string) : bool :=
  hasElement page identifier || existsb (String.eqb identifier) (otherGlobals page).

(** [setStatus] with its [fatal] argument (lines 281-293), on a status pane
    that is an element: the status is written, then [throw new Error(error)]
    reads [error], which the script does not declare. *)
Definition setStatusFatal (page : Page) (msg level : string) (fatal : bool)
    (a : Application) : Application * option JsError :=
  let a := setStatus msg level a in
  if fatal then
    if resolves page "error"
    then (a, Some (ErrorWith (globalText page "error")))
    else (a, Some (ReferenceError "error"))
  else (a, None).

(** [getElemOrFail] (lines 62-68).  When the element is missing the argument
    of [setStatus] is evaluated first, and its template reads [elemid],
    which the script does not declare.  Where the page binds it, [setStatus]
    is called: with [this.statusPane] already assigned it writes the message
    and throws; during the first lookup [this.statusPane] is still
    [undefined], which is not [null] and has no [classList]. *)
Definition getElemOrFail (page : Page) (statusAssigned : bool) (elemId : string)
    (a : Application) : Application * option JsError :=
  if hasElement page elemId then (a, None)
  else if resolves page "elemid" then
    let msg := ("Fatal: Could not locate #" ++ globalText page "elemid" ++ ".")%string in
    if statusAssigned then setStatusFatal page msg "error" true a
    else (a, Some TypeError)
  else (a, Some (ReferenceError "elemid")).

(** The sensor subscriptions: the [deviceorientationabsolute] listener and
    the geolocation watch. *)
Record Subscriptions : Type := {
  orientationListener : bool;
  positionWatch : bool
}.

(** The outcome of [new Application()]: the running application with its
    subscriptions, or the exception, with what was written to the status
    pane before it was raised. *)
Inductive Constructed : Type :=
  | Started (s : System) (subscriptions : Subscriptions)
  | Failed (e : JsError) (written : option (string * string)).

(** The application before the constructor has written anything. *)
Definition blankApp : Application :=
  {| currentLocation := None;
     currentHeading := None;
     nearbyPubs := None;
     selectedPubId := IdNull;
     _pendingFetch := false;
     dom := {| statusPane := None; compassRotation := None;
               distanceDiv := None; nameDiv := None; pubListElem := None |} |}.

(** The lookups of lines 39-43 in the order they are made, up to the first
    that throws.  Each comes with whether [this.statusPane] has been
    assigned by then. *)
Fixpoint lookups (page : Page) (elemIds : list (string * bool)) (a : Application)
  : Application * option JsError :=
  match elemIds with
  | [] => (a, None)
  | (elemId, statusAssigned) :: rest =>
      match getElemOrFail page statusAssigned elemId a with
      | (a, Some e) => (a, Some e)
      | (a, None) => lookups page rest a
      end
  end.

Definition constructorLookups : list (string * bool) :=
  [("status", false); ("compass", true); ("distance", true);
   ("name", true); ("list", true)]%string.

(** The constructor (lines 38-60): the five lookups, the test for the
    geolocation service, the fields, the first status and the two
    subscriptions.  An exception ends it where it is raised. *)
Definition construct (page : Page) : Constructed :=
  match lookups page constructorLookups blankApp with
  | (a, Some e) => Failed e (statusPane (dom a))
  | (a, None) =>
      let (a, thrown) :=
        if negb (hasGeolocation page)
        then setStatusFatal page "Geolocation not available." "error" true a
        else (a, None) in
      match thrown with
      | Some e => Failed e (statusPane (dom a))
      | None =>
          let (a, thrown) := setStatusFatal page "Fetching location" "info" false a in
          match thrown with
          | Some e => Failed e (statusPane (dom a))
          | None =>
              Started {| app := a; inflight := [] |}
                      {| orientationListener := true; positionWatch := true |}
          end
      end
  end.

(** ** Further concrete data *)

Module Sample.

(** The search records that [Example.pubs] is built from. *)
Definition elements : list Overpass.Element :=
  [ {| Overpass.geometry := Overpass.Center 1 0;
       Overpass.tags := Some (Some "The Far Pub"%string);
       Overpass.id := IdNum 0 |};
    {| Overpass.geometry := Overpass.Node 0 0;
       Overpass.tags := Some None;
       Overpass.id := IdNum 7 |} ].

(** At [Example.origin] with both pubs fetched and the near one selected. *)
Definition nearSelected : Application := withSelected (IdNum 7) Example.atOrigin.

(** The same with the far pub, whose id is the number 0, selected. *)
Definition zeroSelected : Application := withSelected (IdNum 0) Example.atOrigin.

(** A system at rest in the state [Example.atOrigin]. *)
Definition atRest : System := {| app := Example.atOrigin; inflight := [] |}.

(** A page with the five elements and a geolocation service. *)
Definition fullPage : Page :=
  {| elementIds := ["status"; "compass"; "distance"; "name"; "list"]%string;
     otherGlobals := [];
     globalText := fun _ => EmptyString;
     hasGeolocation := true |}.

(** The same page in a browser without a geolocation service. *)
Definition noGeolocationPage : Page :=
  {| elementIds := ["status"; "compass"; "distance"; "name"; "list"]%string;
     otherGlobals := [];
     globalText := fun _ => EmptyString;
     hasGeolocation := false |}.

(** A page that lacks the list element. *)
Definition noListPage : Page :=
  {| elementIds := ["status"; "compass"; "distance"; "name"]%string;
     otherGlobals := [];
     globalText := fun _ => EmptyString;
     hasGeolocation := true |}.

(** Two pubs in one building a degree north of [Example.origin], with the
    pub at [Example.origin] between them in the reply. *)
Definition crown : Pub.t :=
  {| Pub.latitude := 1; Pub.longitude := 0;
     Pub.name := Some "The Crown"%string; Pub.id := IdNum 5 |}.

Definition anchor : Pub.t :=
  {| Pub.latitude := 1; Pub.longitude := 0;
     Pub.name := Some "The Anchor"%string; Pub.id := IdNum 9 |}.

Definition threePubs : list Pub.t := [crown; Example.nearPub; anchor].

(** The search records that [threePubs] is built from. *)
Definition threeElements : list Overpass.Element :=
  [ {| Overpass.geometry := Overpass.Node 1 0;
       Overpass.tags := Some (Some "The Crown"%string);
       Overpass.id := IdNum 5 |};
    {| Overpass.geometry := Overpass.Node 0 0;
       Overpass.tags := Some None;
       Overpass.id := IdNum 7 |};
    {| Overpass.geometry := Overpass.Center 1 0;
       Overpass.tags := Some (Some "The Anchor"%string);
       Overpass.id := IdNum 9 |} ].

(** At [Example.origin] with the three pubs fetched and none selected. *)
Definition inTown : Application :=
  {| currentLocation := Some Example.origin;
     currentHeading := None;
     nearbyPubs := Some threePubs;
     selectedPubId := IdNull;
     _pendingFetch := false;
     dom := initialDom |}.

(** The system once the body of the first fetch has arrived with the records
    of [elements]. *)
Definition afterReply : System :=
  {| app := onFinally (afterJson (Overpass.Json (Some elements))
                                 (app Scenario.awaitingBody));
     inflight := [] |}.

End Sample.

(** The page shows what the state resolves to: with a location and a
    non-empty candidate set, the name, distance, rotation and list on the
    page are those computed from the current fields. *)
Definition displayInSync (a : Application) : Prop :=
  forall loc pubs,
    ready a = Some (loc, pubs) ->
    exists p,
      selectedPub loc pubs (selectedPubId a) = Some p /\
      nameDiv (dom a) = Some (displayName p) /\
      distanceDiv (dom a) = distanceStr (distanceFrom loc p) /\
      compassRotation (dom a) =
        Some (shortRelBearing
                (bearingBetween (latitude loc) (longitude loc)
                                (Pub.latitude p) (Pub.longitude p))
                (currentHeading a)) /\
      pubListElem (dom a) =
        Some (map (createLinkElem loc (selectedPubId a))
                  (toSorted (distanceSort loc) pubs)).
(** ** Facts about the number operations *)

Lemma trunc_nonneg_bounds (x : R) :
  0 <= x -> IZR (JsNumber.trunc x) <= x < IZR (JsNumber.trunc x) + 1.
Proof.
  intros Hx. unfold JsNumber.trunc.
  destruct (Rle_dec 0 x) as [_ | Hn]; [| contradiction].
  destruct (base_Int_part x) as [Hlo Hhi]. lra.
Qed.

Lemma trunc_neg_bounds (x : R) :
  x < 0 -> IZR (JsNumber.trunc x) - 1 < x <= IZR (JsNumber.trunc x).
Proof.
  intros Hx. unfold JsNumber.trunc.
  destruct (Rle_dec 0 x) as [Hp | _]; [lra |].
  destruct (base_Int_part (- x)) as [Hlo Hhi].
  rewrite opp_IZR. lra.
Qed.

Lemma trunc_unique_nonneg (x : R) (k : Z) :
  IZR k <= x < IZR k + 1 -> 0 <= x -> JsNumber.trunc x = k.
Proof.
  intros Hk Hx. unfold JsNumber.trunc.
  destruct (Rle_dec 0 x) as [_ | Hn]; [| contradiction].
  symmetry. apply Int_part_spec. lra.
Qed.

(** The remainder differs from the dividend by a whole multiple of the
    divisor. *)
Lemma rem_congruent (n d : R) :
  exists k : Z, JsNumber.rem n d = n + d * IZR k.
Proof.
  exists (- JsNumber.trunc (n / d))%Z. unfold JsNumber.rem.
  rewrite opp_IZR. ring.
Qed.

Lemma rem_nonneg_range (n d : R) :
  0 < d -> 0 <= n -> 0 <= JsNumber.rem n d < d.
Proof.
  intros Hd Hn. unfold JsNumber.rem.
  assert (Hq : 0 <= n / d).
  { unfold Rdiv. apply Rmult_le_pos; [assumption |].
    left. apply Rinv_0_lt_compat. assumption. }
  destruct (trunc_nonneg_bounds (n / d) Hq) as [Hlo Hhi].
  assert (Hnd : n = d * (n / d)) by (field; lra).
  set (t := IZR (JsNumber.trunc (n / d))) in *.
  set (q := n / d) in *.
  split; nra.
Qed.

Lemma rem_neg_range (n d : R) :
  0 < d -> n < 0 -> - d < JsNumber.rem n d <= 0.
Proof.
  intros Hd Hn. unfold JsNumber.rem.
  assert (Hq : n / d < 0).
  { unfold Rdiv. assert (0 < / d) by (apply Rinv_0_lt_compat; assumption). nra. }
  destruct (trunc_neg_bounds (n / d) Hq) as [Hlo Hhi].
  assert (Hnd : n = d * (n / d)) by (field; lra).
  set (t := IZR (JsNumber.trunc (n / d))) in *.
  set (q := n / d) in *.
  split; nra.
Qed.

(** The remainder of a value in [[k*d, (k+1)*d)] is the value less [k*d]. *)
Lemma rem_in_window (n d : R) (k : Z) :
  0 < d -> 0 <= n -> d * IZR k <= n < d * (IZR k + 1) ->
  JsNumber.rem n d = n - d * IZR k.
Proof.
  intros Hd Hn [Hlo Hhi]. unfold JsNumber.rem.
  assert (Hinv : 0 < / d) by (apply Rinv_0_lt_compat; assumption).
  assert (Hq : 0 <= n / d) by (unfold Rdiv; nra).
  rewrite (trunc_unique_nonneg (n / d) k); [reflexivity | | assumption].
  split.
  - apply Rmult_le_reg_l with d; [assumption |].
    replace (d * (n / d)) with n by (field; lra). assumption.
  - apply Rmult_lt_reg_l with d; [assumption |].
    replace (d * (n / d)) with n by (field; lra). assumption.
Qed.

Lemma atan2_range (y x : R) : - PI < JsNumber.atan2 y x <= PI.
Proof.
  unfold JsNumber.atan2. pose proof PI_RGT_0 as Hpi.
  pose proof (atan_bound (y / x)) as [Hlo Hhi].
  destruct (Rlt_dec 0 x) as [Hx | Hx]; [lra |].
  destruct (Rlt_dec x 0) as [Hx' | Hx'].
  - assert (Hinv : / x < 0) by (apply Rinv_lt_0_compat; assumption).
    destruct (Rle_dec 0 y) as [Hy | Hy].
    + assert (Hle : atan (y / x) <= 0).
      { rewrite <- atan_0.
        destruct (Req_dec (y / x) 0) as [E | E]; [rewrite E; lra |].
        left. apply atan_increasing. unfold Rdiv in *. nra. }
      lra.
    + assert (Hgt : 0 < atan (y / x)).
      { rewrite <- atan_0. apply atan_increasing. unfold Rdiv. nra. }
      lra.
  - destruct (Rlt_dec 0 y); [lra |].
    destruct (Rlt_dec y 0); lra.
Qed.

Lemma atan2_origin : JsNumber.atan2 0 0 = 0.
Proof.
  unfold JsNumber.atan2.
  destruct (Rlt_dec 0 0) as [H | _]; [lra |]. reflexivity.
Qed.

(** ** Facts about formatting *)

Lemma decimal_small : JsFormat.decimal 999 = "999"%string.
Proof. reflexivity. Qed.

Lemma formatFixed_example : JsFormat.formatFixed 5 2 = "0.05"%string.
Proof. reflexivity. Qed.

Lemma toFixed_rounds (x : R) (f : nat) (n : Z) :
  0 <= x < 10 ^ 21 ->
  IZR n <= x * 10 ^ f + / 2 < IZR n + 1 ->
  JsFormat.toFixed x f = Some (JsFormat.formatFixed n f).
Proof.
  intros [Hx0 Hx1] Hn. unfold JsFormat.toFixed, JsFormat.toFixedAbs.
  destruct (Rlt_dec x 0) as [Hneg | _]; [lra |].
  destruct (Rle_dec (10 ^ 21) x) as [Hbig | _]; [lra |].
  f_equal. f_equal. symmetry. apply Int_part_spec. lra.
Qed.

Lemma toFixed_defined (x : R) (f : nat) :
  0 <= x < 10 ^ 21 ->
  exists n : Z,
    (0 <= n)%Z /\ IZR n <= x * 10 ^ f + / 2 < IZR n + 1 /\
    JsFormat.toFixed x f = Some (JsFormat.formatFixed n f).
Proof.
  intros Hx. set (y := x * 10 ^ f + / 2).
  assert (Hy : 0 <= y).
  { unfold y. assert (0 < 10 ^ f) by (apply pow_lt; lra). nra. }
  destruct (base_Int_part y) as [Hlo Hhi].
  exists (Int_part y). split; [| split].
  - apply le_IZR. apply Rnot_lt_le. intro Hlt.
    assert (IZR (Int_part y) <= -1).
    { apply IZR_le. apply lt_IZR in Hlt. lia. }
    lra.
  - fold y. lra.
  - apply toFixed_rounds; [assumption | fold y; lra].
Qed.

Lemma distanceStr_999 : distanceStr 999 = Some "999m"%string.
Proof.
  unfold distanceStr. destruct (Rlt_dec 1000 999) as [H | _]; [lra |].
  rewrite (toFixed_rounds 999 0 999); [reflexivity | lra | simpl; lra].
Qed.

Lemma distanceStr_1500 : distanceStr 1500 = Some "1.50km"%string.
Proof.
  unfold distanceStr. destruct (Rlt_dec 1000 1500) as [_ | H]; [| lra].
  rewrite (toFixed_rounds (1500 / 1000) 2 150); [reflexivity | lra | simpl; lra].
Qed.

Lemma distanceStr_1000 : distanceStr 1000 = Some "1000m"%string.
Proof.
  unfold distanceStr. destruct (Rlt_dec 1000 1000) as [H | _]; [lra |].
  rewrite (toFixed_rounds 1000 0 1000); [reflexivity | lra | simpl; lra].
Qed.

(** ** Facts about the geo math *)

Lemma degToRad_0 : degToRad 0 = 0.
Proof. unfold degToRad. field. Qed.

Lemma degToRad_opp (d : R) : degToRad (- d) = - degToRad d.
Proof. unfold degToRad. field. Qed.

Lemma haversineFunc_0 : haversineFunc 0 = 0.
Proof. unfold haversineFunc. rewrite degToRad_0, cos_0. field. Qed.

Lemma haversineFunc_even (a b : R) : haversineFunc (a - b) = haversineFunc (b - a).
Proof.
  unfold haversineFunc. replace (a - b) with (- (b - a)) by ring.
  rewrite degToRad_opp, cos_neg. reflexivity.
Qed.

Lemma haversineDistance_sym (lat1 lon1 lat2 lon2 : R) :
  haversineDistance lat1 lon1 lat2 lon2 = haversineDistance lat2 lon2 lat1 lon1.
Proof.
  unfold haversineDistance.
  rewrite (haversineFunc_even lat2 lat1), (haversineFunc_even lon2 lon1).
  rewrite (Rmult_comm (cos (degToRad lat1)) (cos (degToRad lat2))).
  reflexivity.
Qed.

Lemma haversineDistance_same (lat lon : R) : haversineDistance lat lon lat lon = 0.
Proof.
  unfold haversineDistance.
  replace (lat - lat) with 0 by ring. replace (lon - lon) with 0 by ring.
  rewrite haversineFunc_0.
  replace (0 + cos (degToRad lat) * cos (degToRad lat) * 0) with 0 by ring.
  rewrite sqrt_0, asin_0. ring.
Qed.


(** Along a meridian the distance is the arc length of the latitude
    difference. *)
Lemma haversineDistance_meridian (lat1 lat2 lon : R) :
  0 <= lat2 - lat1 <= 180 ->
  haversineDistance lat1 lon lat2 lon = 6371000 * degToRad (lat2 - lat1).
Proof.
  intros [Hlo Hhi]. unfold haversineDistance.
  replace (lon - lon) with 0 by ring. rewrite haversineFunc_0.
  pose proof PI_RGT_0 as Hpi.
  set (h := degToRad (lat2 - lat1) / 2).
  assert (Hh : 0 <= h <= PI / 2).
  { unfold h, degToRad. split; nra. }
  assert (Hhav : haversineFunc (lat2 - lat1) +
                 cos (degToRad lat1) * cos (degToRad lat2) * 0 = sin h * sin h).
  { unfold haversineFunc.
    replace (degToRad (lat2 - lat1)) with (2 * h) by (unfold h; field).
    rewrite cos_2a_sin. field. }
  rewrite Hhav.
  rewrite sqrt_square by (apply sin_ge_0; lra).
  rewrite asin_sin by lra.
  unfold h. field.
Qed.

Lemma bearingBetween_same (lat lon : R) : bearingBetween lat lon lat lon = 0.
Proof.
  unfold bearingBetween.
  replace (lon - lon) with 0 by ring.
  rewrite degToRad_0, sin_0, cos_0.
  replace (0 * cos (degToRad lat)) with 0 by ring.
  replace (cos (degToRad lat) * sin (degToRad lat) -
           sin (degToRad lat) * cos (degToRad lat) * 1) with 0 by ring.
  rewrite atan2_origin.
  replace (0 * 180 / PI + 360) with 360 by (field; apply PI_neq0).
  rewrite (rem_in_window 360 360 1); lra.
Qed.

(** A target due south of the observer has bearing 180. *)
Lemma bearingBetween_south (lat1 lat2 lon : R) :
  0 < lat1 - lat2 < 180 ->
  bearingBetween lat1 lon lat2 lon = 180.
Proof.
  intros [Hlo Hhi]. unfold bearingBetween.
  replace (lon - lon) with 0 by ring.
  rewrite degToRad_0, sin_0, cos_0.
  replace (0 * cos (degToRad lat2)) with 0 by ring.
  pose proof PI_RGT_0 as Hpi.
  assert (Hx : cos (degToRad lat1) * sin (degToRad lat2) -
               sin (degToRad lat1) * cos (degToRad lat2) * 1 < 0).
  { replace (cos (degToRad lat1) * sin (degToRad lat2) -
             sin (degToRad lat1) * cos (degToRad lat2) * 1)
      with (- sin (degToRad lat1 - degToRad lat2)) by (rewrite sin_minus; ring).
    assert (0 < sin (degToRad lat1 - degToRad lat2)).
    { apply sin_gt_0; unfold degToRad; nra. }
    lra. }
  set (x := cos (degToRad lat1) * sin (degToRad lat2) -
            sin (degToRad lat1) * cos (degToRad lat2) * 1) in *.
  assert (Ht : JsNumber.atan2 0 x = PI).
  { unfold JsNumber.atan2.
    destruct (Rlt_dec 0 x) as [H | _]; [lra |].
    destruct (Rlt_dec x 0) as [_ | H]; [| lra].
    destruct (Rle_dec 0 0) as [_ | H]; [| lra].
    unfold Rdiv. rewrite Rmult_0_l, atan_0. ring. }
  rewrite Ht.
  replace (PI * 180 / PI + 360) with 540 by (field; lra).
  rewrite (rem_in_window 540 360 1); lra.
Qed.

(** C7: at equal points the distance is 0 and the bearing is the determinate
    value 0. *)
Theorem geo_math_equal_points (lat lon : R) :
  haversineDistance lat lon lat lon = 0 /\ bearingBetween lat lon lat lon = 0.
Proof.
  split; [apply haversineDistance_same | apply bearingBetween_same].
Qed.

(** C8: the distance is symmetric in its two points: the two values are
    equal, hence within a relative tolerance of 1e-6 of each other. *)
Theorem haversineDistance_symmetric (lat1 lon1 lat2 lon2 : R) :
  haversineDistance lat1 lon1 lat2 lon2 = haversineDistance lat2 lon2 lat1 lon1 /\
  Rabs (haversineDistance lat1 lon1 lat2 lon2 - haversineDistance lat2 lon2 lat1 lon1)
    <= / 1000000 * Rabs (haversineDistance lat1 lon1 lat2 lon2).
Proof.
  split; [apply haversineDistance_sym |].
  rewrite (haversineDistance_sym lat2 lon2 lat1 lon1).
  replace (haversineDistance lat1 lon1 lat2 lon2 - haversineDistance lat1 lon1 lat2 lon2)
    with 0 by ring.
  rewrite Rabs_R0.
  pose proof (Rabs_pos (haversineDistance lat1 lon1 lat2 lon2)). lra.
Qed.

(** C9: the bearing between any two points lies in [0, 360). *)
Theorem bearingBetween_in_compass_range (lat1 lon1 lat2 lon2 : R) :
  0 <= bearingBetween lat1 lon1 lat2 lon2 < 360.
Proof.
  unfold bearingBetween.
  match goal with |- context [JsNumber.atan2 ?y ?x] =>
    destruct (atan2_range y x) as [Hlo Hhi]; set (theta := JsNumber.atan2 y x) in *
  end.
  pose proof PI_RGT_0 as Hpi.
  assert (Hdeg : -180 < theta * 180 / PI <= 180).
  { split.
    - apply Rmult_lt_reg_r with PI; [assumption |].
      replace (theta * 180 / PI * PI) with (theta * 180) by (field; lra). lra.
    - apply Rmult_le_reg_r with PI; [assumption |].
      replace (theta * 180 / PI * PI) with (theta * 180) by (field; lra). lra. }
  apply rem_nonneg_range; lra.
Qed.

(** ** The shape of formatted numbers *)

Lemma substring_prefix (a b : string) :
  substring 0 (String.length a) (a ++ b) = a.
Proof.
  induction a as [| c a IH]; simpl.
  - destruct b; reflexivity.
  - rewrite IH. reflexivity.
Qed.

Lemma substring_whole (b : string) : substring 0 (String.length b) b = b.
Proof.
  induction b as [| c b IH]; simpl; [reflexivity |].
  rewrite IH. reflexivity.
Qed.

Lemma substring_suffix (a b : string) :
  substring (String.length a) (String.length b) (a ++ b) = b.
Proof.
  induction a as [| c a IH]; simpl.
  - apply substring_whole.
  - exact IH.
Qed.

Lemma string_length_append (a b : string) :
  String.length (a ++ b) = (String.length a + String.length b)%nat.
Proof.
  induction a as [| c a IH]; simpl; [reflexivity |].
  rewrite IH. reflexivity.
Qed.

Lemma append_assoc (a b c : string) : ((a ++ b) ++ c = a ++ (b ++ c))%string.
Proof.
  induction a as [| x a IH]; simpl; [reflexivity |].
  rewrite IH. reflexivity.
Qed.

(** Any fuel that covers the digits gives the same string. *)
Lemma decimalFuel_enough (f1 : nat) :
  forall (f2 : nat) (n : Z),
    (0 <= n < 10 ^ Z.of_nat (S f1))%Z ->
    (n < 10 ^ Z.of_nat (S f2))%Z ->
    JsFormat.decimalFuel (S f1) n = JsFormat.decimalFuel (S f2) n.
Proof.
  induction f1 as [| f1 IH]; intros f2 n Hn1 Hn2.
  - simpl. change (10 ^ Z.of_nat 1)%Z with 10%Z in Hn1.
    destruct (n <? 10)%Z eqn:E; [reflexivity |].
    apply Z.ltb_ge in E. lia.
  - cbn [JsFormat.decimalFuel].
    destruct (n <? 10)%Z eqn:E; [reflexivity |].
    apply Z.ltb_ge in E.
    destruct f2 as [| f2].
    + change (10 ^ Z.of_nat 1)%Z with 10%Z in Hn2. lia.
    + f_equal. apply IH.
      * rewrite Nat2Z.inj_succ, Z.pow_succ_r in Hn1 by lia.
        split; [apply Z.div_pos; lia |].
        apply Z.div_lt_upper_bound; lia.
      * rewrite Nat2Z.inj_succ, Z.pow_succ_r in Hn2 by lia.
        apply Z.div_lt_upper_bound; lia.
Qed.

Lemma decimal_fuel_covers (n : Z) :
  (0 <= n)%Z -> (n < 10 ^ Z.of_nat (S (Z.to_nat (Z.log2 n))))%Z.
Proof.
  intros Hn. rewrite Nat2Z.inj_succ, Z2Nat.id by apply Z.log2_nonneg.
  destruct (Z.eq_dec n 0) as [-> | Hnz].
  - simpl. lia.
  - pose proof (Z.log2_spec n ltac:(lia)) as [_ Hhi].
    pose proof (Z.log2_nonneg n) as Hl.
    assert (2 ^ Z.succ (Z.log2 n) <= 10 ^ Z.succ (Z.log2 n))%Z.
    { apply Z.pow_le_mono_l. lia. }
    lia.
Qed.

Lemma decimal_fuel (f : nat) (n : Z) :
  (0 <= n < 10 ^ Z.of_nat (S f))%Z ->
  JsFormat.decimal n = JsFormat.decimalFuel (S f) n.
Proof.
  intros Hn. unfold JsFormat.decimal.
  apply decimalFuel_enough; [| lia].
  split; [lia |]. apply decimal_fuel_covers. lia.
Qed.

(** The digits of [n] are the digits of [n / 10] followed by the last one. *)
Lemma decimal_step (n : Z) :
  (10 <= n)%Z ->
  JsFormat.decimal n =
  (JsFormat.decimal (n / 10) ++ String (JsFormat.digitChar (n mod 10)) "")%string.
Proof.
  intros Hn.
  pose proof (decimal_fuel_covers n ltac:(lia)) as Hcov.
  unfold JsFormat.decimal at 1.
  destruct (Z.to_nat (Z.log2 n)) as [| f] eqn:Ef.
  - change (10 ^ Z.of_nat 1)%Z with 10%Z in Hcov. lia.
  - cbn [JsFormat.decimalFuel].
    destruct (n <? 10)%Z eqn:E; [apply Z.ltb_lt in E; lia |].
    f_equal. symmetry. apply decimal_fuel.
    rewrite Nat2Z.inj_succ, Z.pow_succ_r in Hcov by lia.
    split; [apply Z.div_pos; lia |].
    apply Z.div_lt_upper_bound; lia.
Qed.

Lemma decimal_nonempty (n : Z) : (1 <= String.length (JsFormat.decimal n))%nat.
Proof.
  unfold JsFormat.decimal. cbn [JsFormat.decimalFuel].
  destruct (n <? 10)%Z; [simpl; lia |].
  rewrite string_length_append. simpl. lia.
Qed.

(** From 100 on, two places after the point are the last two digits. *)
Lemma formatFixed_two_places (n : Z) :
  (100 <= n)%Z ->
  JsFormat.formatFixed n 2 =
  (JsFormat.decimal (n / 100) ++ "." ++
   String (JsFormat.digitChar ((n mod 100) / 10))
          (String (JsFormat.digitChar ((n mod 100) mod 10)) ""))%string.
Proof.
  intros Hn.
  assert (Hd : JsFormat.decimal n =
               (JsFormat.decimal (n / 100) ++
                String (JsFormat.digitChar ((n mod 100) / 10))
                       (String (JsFormat.digitChar ((n mod 100) mod 10)) ""))%string).
  { rewrite (decimal_step n) by lia.
    rewrite (decimal_step (n / 10)) by (apply Z.div_le_lower_bound; lia).
    rewrite append_assoc. simpl.
    replace (n / 10 / 10)%Z with (n / 100)%Z
      by (Z.to_euclidean_division_equations; lia).
    replace ((n / 10) mod 10)%Z with ((n mod 100) / 10)%Z
      by (Z.to_euclidean_division_equations; lia).
    replace (n mod 10)%Z with ((n mod 100) mod 10)%Z
      by (Z.to_euclidean_division_equations; lia).
    reflexivity. }
  unfold JsFormat.formatFixed. rewrite Hd.
  set (whole := JsFormat.decimal (n / 100)).
  set (frac := String (JsFormat.digitChar ((n mod 100) / 10))
                 (String (JsFormat.digitChar ((n mod 100) mod 10)) "")).
  pose proof (decimal_nonempty (n / 100)) as Hw. fold whole in Hw.
  rewrite string_length_append.
  change (String.length frac) with 2%nat.
  destruct (String.length whole + 2 <=? 2)%nat eqn:E.
  { apply Nat.leb_le in E. lia. }
  rewrite string_length_append.
  change (String.length frac) with 2%nat.
  replace (String.length whole + 2 - 2)%nat with (String.length whole) by lia.
  rewrite substring_prefix.
  change 2%nat with (String.length frac) at 1.
  rewrite substring_suffix. reflexivity.
Qed.

(** ** Facts about sorting *)

Section ToSortedFacts.
Context {A : Type}.
Variable key : A -> R.

Lemma insertSorted_In (x y : A) (l : list A) :
  In y (insertSorted (compareByKey key) x l) <-> y = x \/ In y l.
Proof.
  induction l as [| z l IH]; simpl.
  - intuition congruence.
  - destruct (Rle_dec ((compareByKey key) x z) 0); simpl; [intuition congruence |].
    rewrite IH. intuition congruence.
Qed.

Lemma toSorted_In (y : A) (l : list A) :
  In y (toSorted (compareByKey key) l) <-> In y l.
Proof.
  induction l as [| x l IH]; simpl; [reflexivity |].
  rewrite insertSorted_In, IH. intuition congruence.
Qed.

Lemma insertSorted_length (x : A) (l : list A) :
  List.length (insertSorted (compareByKey key) x l) = S (List.length l).
Proof.
  induction l as [| z l IH]; simpl; [reflexivity |].
  destruct (Rle_dec ((compareByKey key) x z) 0); simpl; [reflexivity |].
  rewrite IH. reflexivity.
Qed.

Lemma toSorted_length (l : list A) : List.length (toSorted (compareByKey key) l) = List.length l.
Proof.
  induction l as [| x l IH]; simpl; [reflexivity |].
  rewrite insertSorted_length, IH. reflexivity.
Qed.

(** The head of a list with an element inserted. *)
Lemma insertSorted_head (x : A) (l : list A) :
  hd_error (insertSorted (compareByKey key) x l) =
  match hd_error l with
  | None => Some x
  | Some y => if Rle_dec (key x - key y) 0 then Some x else Some y
  end.
Proof.
  destruct l as [| y l]; simpl; [reflexivity |].
  unfold compareByKey. destruct (Rle_dec (key x - key y) 0); reflexivity.
Qed.

Lemma firstLeast_least (l : list A) (p q : A) :
  firstLeast key l p -> In q l -> key p <= key q.
Proof.
  intros (l1 & l2 & -> & Hbefore & Hafter) Hq.
  apply in_app_or in Hq. destruct Hq as [Hq | [-> | Hq]].
  - left. apply Hbefore. assumption.
  - lra.
  - apply Hafter. assumption.
Qed.

Lemma firstLeast_unique (l : list A) (p q : A) :
  firstLeast key l p -> firstLeast key l q -> p = q.
Proof.
  intros (l1 & l2 & E1 & Hb1 & Ha1) (m1 & m2 & E2 & Hb2 & Ha2).
  subst l. revert m1 E2 Hb1 Hb2.
  induction l1 as [| a l1 IH]; intros m1 E2 Hb1 Hb2.
  - destruct m1 as [| b m1]; simpl in E2.
    + congruence.
    + injection E2 as -> E2.
      assert (key q < key b) by (apply Hb2; left; reflexivity).
      assert (key b <= key q).
      { apply Ha1. rewrite E2. apply in_or_app. right. left. reflexivity. }
      lra.
  - destruct m1 as [| b m1]; simpl in E2.
    + injection E2 as -> E2.
      assert (key p < key q) by (apply Hb1; left; reflexivity).
      assert (key q <= key p).
      { apply Ha2. rewrite <- E2. apply in_or_app. right. left. reflexivity. }
      lra.
    + injection E2 as -> E2.
      apply (IH m1 E2).
      * intros r Hr. apply Hb1. right. assumption.
      * intros r Hr. apply Hb2. right. assumption.
Qed.

Lemma toSorted_head (l : list A) (p : A) :
  hd_error (toSorted (compareByKey key) l) = Some p -> firstLeast key l p.
Proof.
  revert p. induction l as [| x l IH]; intros p Hp; simpl in Hp.
  - discriminate.
  - rewrite insertSorted_head in Hp.
    destruct (hd_error (toSorted (compareByKey key) l)) as [y |] eqn:Hy.
    + specialize (IH y eq_refl).
      destruct (Rle_dec (key x - key y) 0) as [Hle | Hgt].
      * injection Hp as <-. exists [], l. split; [reflexivity |].
        split; [intros q []|].
        intros q Hq. pose proof (firstLeast_least l y q IH Hq). lra.
      * injection Hp as <-.
        destruct IH as (l1 & l2 & -> & Hbefore & Hafter).
        exists (x :: l1), l2. split; [reflexivity |].
        split; [| assumption].
        intros q [<- | Hq]; [lra | apply Hbefore; assumption].
    + injection Hp as <-.
      assert (l = []) as ->.
      { destruct l as [| z l]; [reflexivity |].
        pose proof (toSorted_length (z :: l)) as Hlen.
        destruct (toSorted (compareByKey key) (z :: l)); simpl in *; discriminate. }
      exists [], []. split; [reflexivity |].
      split; intros q [].
Qed.

Lemma toSorted_head_nonempty (x : A) (l : list A) :
  exists p, hd_error (toSorted (compareByKey key) (x :: l)) = Some p.
Proof.
  pose proof (toSorted_length (x :: l)) as Hlen.
  destruct (toSorted (compareByKey key) (x :: l)) as [| p t]; [discriminate |].
  exists p. reflexivity.
Qed.

(** The result is in ascending order of key. *)
Lemma insertSorted_sorted (x : A) (l : list A) :
  StronglySorted (fun a b => key a <= key b) l ->
  StronglySorted (fun a b => key a <= key b) (insertSorted (compareByKey key) x l).
Proof.
  induction 1 as [| y l Hs IH Hall]; simpl.
  - constructor; constructor.
  - unfold compareByKey at 1. destruct (Rle_dec (key x - key y) 0) as [Hle | Hgt].
    + constructor; [constructor; assumption |].
      constructor; [lra |].
      rewrite Forall_forall in *. intros z Hz. specialize (Hall z Hz). lra.
    + constructor; [assumption |].
      rewrite Forall_forall in *. intros z Hz.
      apply insertSorted_In in Hz. destruct Hz as [-> | Hz]; [lra | auto].
Qed.

Lemma toSorted_sorted (l : list A) :
  StronglySorted (fun a b => key a <= key b) (toSorted (compareByKey key) l).
Proof.
  induction l as [| x l IH]; simpl; [constructor |].
  apply insertSorted_sorted. assumption.
Qed.
End ToSortedFacts.

(** ** Facts about the methods *)

Lemma strictEq_eq (a b : JsId) : strictEq a b = true <-> a = b.
Proof.
  destruct a, b; simpl; try (split; [discriminate | congruence]);
    try (split; reflexivity).
  - rewrite Z.eqb_eq. split; congruence.
  - rewrite String.eqb_eq. split; congruence.
Qed.

Lemma ready_nonempty (a : Application) (loc : Coordinates) (pubs : list Pub.t) :
  ready a = Some (loc, pubs) ->
  currentLocation a = Some loc /\ nearbyPubs a = Some pubs /\ pubs <> [].
Proof.
  unfold ready. destruct (currentLocation a) as [l |]; [| discriminate].
  destruct (nearbyPubs a) as [[| p ps] |]; try discriminate.
  intros [= <- <-]. repeat split. discriminate.
Qed.

Lemma ready_intro (a : Application) (loc : Coordinates) (pubs : list Pub.t) :
  currentLocation a = Some loc -> nearbyPubs a = Some pubs -> pubs <> [] ->
  ready a = Some (loc, pubs).
Proof.
  intros Hl Hp Hne. unfold ready. rewrite Hl, Hp.
  destruct pubs; [contradiction | reflexivity].
Qed.

(** Without a truthy selection, or without a member carrying it, the result
    is the head of the sorted copy. *)
Lemma selectedPub_falsy (loc : Coordinates) (pubs : list Pub.t) (sel : JsId) :
  truthy sel = false ->
  selectedPub loc pubs sel = hd_error (toSorted (distanceSort loc) pubs).
Proof. intros H. unfold selectedPub. rewrite H. reflexivity. Qed.

Lemma selectedPub_absent (loc : Coordinates) (pubs : list Pub.t) (sel : JsId) :
  (forall p, In p pubs -> Pub.id p <> sel) ->
  selectedPub loc pubs sel = hd_error (toSorted (distanceSort loc) pubs).
Proof.
  intros Habs. unfold selectedPub.
  destruct (truthy sel); [| reflexivity].
  destruct (find (fun p => strictEq (Pub.id p) sel) pubs) as [p |] eqn:Hf;
    [| reflexivity].
  apply find_some in Hf. destruct Hf as [Hin Heq].
  apply strictEq_eq in Heq. exfalso. exact (Habs p Hin Heq).
Qed.

Lemma selectedPub_present (loc : Coordinates) (pubs : list Pub.t) (sel : JsId) :
  truthy sel = true ->
  (exists p, In p pubs /\ Pub.id p = sel) ->
  exists p, selectedPub loc pubs sel = Some p /\ In p pubs /\ Pub.id p = sel.
Proof.
  intros Ht (q & Hq & Hid). unfold selectedPub. rewrite Ht.
  destruct (find (fun p => strictEq (Pub.id p) sel) pubs) as [p |] eqn:Hf.
  - apply find_some in Hf. destruct Hf as [Hin Heq].
    apply strictEq_eq in Heq. exists p. auto.
  - exfalso. pose proof (find_none _ _ Hf q Hq) as Hn. simpl in Hn.
    apply strictEq_eq in Hid. congruence.
Qed.

Lemma sorted_head_nearest (loc : Coordinates) (pubs : list Pub.t) :
  pubs <> [] ->
  exists p, hd_error (toSorted (distanceSort loc) pubs) = Some p /\
            nearestFirst loc pubs p.
Proof.
  intros Hne. destruct pubs as [| x l]; [contradiction |].
  destruct (toSorted_head_nonempty (distanceFrom loc) x l) as [p Hp].
  exists p. split; [exact Hp |].
  apply (toSorted_head (distanceFrom loc)). exact Hp.
Qed.

Lemma selectedPub_nonempty (loc : Coordinates) (pubs : list Pub.t) (sel : JsId) :
  pubs <> [] -> exists p, selectedPub loc pubs sel = Some p.
Proof.
  intros Hne. unfold selectedPub.
  destruct (if truthy sel then find (fun p => strictEq (Pub.id p) sel) pubs else None)
    as [p |]; [exists p; reflexivity |].
  destruct (sorted_head_nearest loc pubs Hne) as (p & Hp & _).
  exists p. exact Hp.
Qed.

Lemma sameFields_refl (a : Application) : sameFields a a.
Proof. repeat split. Qed.

Lemma sameFields_trans (a b c : Application) :
  sameFields a b -> sameFields b c -> sameFields a c.
Proof.
  intros (H1 & H2 & H3 & H4 & H5) (G1 & G2 & G3 & G4 & G5).
  repeat split; congruence.
Qed.

Lemma withDom_sameFields (d : Dom) (a : Application) : sameFields (withDom d a) a.
Proof. repeat split. Qed.

Lemma updateBearingUI_sameFields (a : Application) : sameFields (updateBearingUI a) a.
Proof.
  unfold updateBearingUI.
  destruct (ready a) as [[loc pubs] |]; [| apply sameFields_refl].
  destruct (selectedPub loc pubs (selectedPubId a)); [| apply sameFields_refl].
  apply withDom_sameFields.
Qed.

Lemma updateUI_sameFields (a : Application) : sameFields (updateUI a) a.
Proof.
  unfold updateUI.
  destruct (ready a) as [[loc pubs] |]; [| apply sameFields_refl].
  simpl.
  destruct (selectedPub loc pubs (selectedPubId a)).
  - eapply sameFields_trans; [apply updateBearingUI_sameFields |].
    repeat split.
  - repeat split.
Qed.

Lemma updateUI_pending (a : Application) :
  _pendingFetch (updateUI a) = _pendingFetch a.
Proof. apply updateUI_sameFields. Qed.

Lemma updateBearingUI_status (a : Application) :
  statusPane (dom (updateBearingUI a)) = statusPane (dom a).
Proof.
  unfold updateBearingUI.
  destruct (ready a) as [[loc pubs] |]; [| reflexivity].
  destruct (selectedPub loc pubs (selectedPubId a)); reflexivity.
Qed.

(** When the guard fails [updateUI] does nothing. *)
Lemma updateUI_not_ready (a : Application) : ready a = None -> updateUI a = a.
Proof. intros H. unfold updateUI. rewrite H. reflexivity. Qed.

(** ** The compass rotation *)

Lemma shortRelBearing_range (bearing : R) (heading : option R) :
  -180 <= shortRelBearing bearing heading < 180.
Proof.
  unfold shortRelBearing.
  set (x := bearing - toNumber heading + 360).
  assert (Hrel : -360 < JsNumber.rem x 360 < 360).
  { destruct (Rle_dec 0 x) as [Hx | Hx].
    - pose proof (rem_nonneg_range x 360 ltac:(lra) Hx). lra.
    - pose proof (rem_neg_range x 360 ltac:(lra) ltac:(lra)). lra. }
  pose proof (rem_nonneg_range (JsNumber.rem x 360 + 540) 360 ltac:(lra) ltac:(lra)).
  lra.
Qed.

Lemma shortRelBearing_congruent (bearing : R) (heading : option R) :
  exists k : Z,
    shortRelBearing bearing heading = bearing - toNumber heading + 360 * IZR k.
Proof.
  unfold shortRelBearing.
  destruct (rem_congruent (bearing - toNumber heading + 360) 360) as [k1 H1].
  destruct (rem_congruent
              (JsNumber.rem (bearing - toNumber heading + 360) 360 + 540) 360)
    as [k2 H2].
  exists (k1 + k2 + 2)%Z. rewrite H2, H1, !plus_IZR. ring.
Qed.

Lemma shortRelBearing_half_turn : shortRelBearing 180 (Some 360) = -180.
Proof.
  unfold shortRelBearing. simpl.
  replace (180 - 360 + 360) with 180 by ring.
  rewrite (rem_in_window 180 360 0) by lra.
  replace (180 - 360 * 0 + 540) with 720 by ring.
  rewrite (rem_in_window 720 360 2) by lra.
  ring.
Qed.

Lemma updateBearingUI_rotation (a : Application) (loc : Coordinates)
    (pubs : list Pub.t) (closestPub : Pub.t) :
  ready a = Some (loc, pubs) ->
  selectedPub loc pubs (selectedPubId a) = Some closestPub ->
  compassRotation (dom (updateBearingUI a)) =
  Some (shortRelBearing
          (bearingBetween (latitude loc) (longitude loc)
                          (Pub.latitude closestPub) (Pub.longitude closestPub))
          (currentHeading a)).
Proof.
  intros Hr Hs. unfold updateBearingUI. rewrite Hr, Hs. reflexivity.
Qed.

(** C1, as stated, fails: with the pub due south (bearing 180) and the
    device facing north ([alpha = 0], heading 360) the rotation is -180,
    which is outside (-180, 180]. *)
Lemma relative_bearing_half_turn_is_minus_180 :
  bearingBetween 1 0 0 0 = 180 /\
  currentHeading (setHeading 0 Example.facingSouthPub) = Some 360 /\
  compassRotation (dom (setHeading 0 Example.facingSouthPub)) = Some (-180) /\
  ~ (-180 < -180 <= 180).
Proof.
  assert (Hb : bearingBetween 1 0 0 0 = 180) by (apply bearingBetween_south; lra).
  split; [exact Hb |].
  split; [unfold setHeading; simpl; f_equal; ring |].
  split; [| lra].
  unfold setHeading, updateBearingUI. simpl.
  rewrite Hb. f_equal.
  replace (360 - 0) with 360 by ring.
  apply shortRelBearing_half_turn.
Qed.

(** C1 (amended): when the display is updated, the rotation is the bearing
    to the resolved pub less the heading, brought into [-180, 180) by a
    whole number of turns. *)
Theorem relative_bearing_normalized (a : Application) (loc : Coordinates)
    (pubs : list Pub.t) :
  ready a = Some (loc, pubs) ->
  exists (closestPub : Pub.t) (r : R),
    selectedPub loc pubs (selectedPubId a) = Some closestPub /\
    compassRotation (dom (updateBearingUI a)) = Some r /\
    -180 <= r < 180 /\
    exists k : Z,
      r = bearingBetween (latitude loc) (longitude loc)
                         (Pub.latitude closestPub) (Pub.longitude closestPub)
          - toNumber (currentHeading a) + 360 * IZR k.
Proof.
  intros Hr. destruct (ready_nonempty a loc pubs Hr) as (_ & _ & Hne).
  destruct (selectedPub_nonempty loc pubs (selectedPubId a) Hne) as [p Hp].
  exists p. eexists. split; [exact Hp |].
  split; [apply (updateBearingUI_rotation a loc pubs p Hr Hp) |].
  split; [apply shortRelBearing_range | apply shortRelBearing_congruent].
Qed.

Lemma relative_bearing_normalized_witness :
  exists (closestPub : Pub.t) (r : R),
    selectedPub {| latitude := 1; longitude := 0 |} [Example.nearPub] IdNull
      = Some closestPub /\
    compassRotation (dom (updateBearingUI Example.facingSouthPub)) = Some r /\
    -180 <= r < 180 /\
    exists k : Z,
      r = bearingBetween 1 0 (Pub.latitude closestPub) (Pub.longitude closestPub)
          - 0 + 360 * IZR k.
Proof.
  exact (relative_bearing_normalized Example.facingSouthPub
           {| latitude := 1; longitude := 0 |} [Example.nearPub] eq_refl).
Defined.

(** ** Target resolution *)

Lemma far_pub_is_farther :
  distanceFrom Example.origin Example.nearPub = 0 /\
  0 < distanceFrom Example.origin Example.farPub.
Proof.
  unfold distanceFrom. simpl. split.
  - apply haversineDistance_same.
  - rewrite haversineDistance_meridian by lra.
    unfold degToRad. pose proof PI_RGT_0. lra.
Qed.

Lemma example_sorted_head :
  hd_error (toSorted (distanceSort Example.origin) Example.pubs) = Some Example.nearPub.
Proof.
  destruct far_pub_is_farther as [Hnear Hfar].
  unfold Example.pubs. simpl.
  destruct (Rle_dec (distanceSort Example.origin Example.farPub Example.nearPub) 0)
    as [Hle | _]; [| reflexivity].
  exfalso. unfold distanceSort in Hle. fold (distanceFrom Example.origin Example.farPub) in Hle.
  fold (distanceFrom Example.origin Example.nearPub) in Hle. lra.
Qed.

(** With the number 0 as selection the member that carries it is passed
    over for the nearest pub. *)
Lemma selection_zero_not_returned :
  In Example.farPub Example.pubs /\
  Pub.id Example.farPub = IdNum 0 /\
  selectedPub Example.origin Example.pubs (IdNum 0) = Some Example.nearPub /\
  Pub.id Example.nearPub <> IdNum 0.
Proof.
  split; [left; reflexivity |].
  split; [reflexivity |].
  split; [| discriminate].
  rewrite selectedPub_falsy by reflexivity.
  apply example_sorted_head.
Qed.

(** X25: target resolution on a non-empty candidate set.  A truthy selection
    carried by a member resolves to such a member, whatever the distances; a
    selection carried by no member resolves to the nearest pub, the first in
    the order of the set among equally near ones; this is also what happens
    once a fetch has replaced the set by one without the selection. *)
Theorem selectedPub_resolution (loc : Coordinates) (pubs : list Pub.t) :
  pubs <> [] ->
  (forall sel : JsId,
     truthy sel = true ->
     (exists p, In p pubs /\ Pub.id p = sel) ->
     exists p, selectedPub loc pubs sel = Some p /\ In p pubs /\ Pub.id p = sel) /\
  (forall sel : JsId,
     (forall p, In p pubs -> Pub.id p <> sel) ->
     exists p, selectedPub loc pubs sel = Some p /\ nearestFirst loc pubs p) /\
  (forall (sel : JsId) (a : Application) (elements : list Overpass.Element),
     selectedPubId a = sel ->
     mapToPub elements = Some pubs ->
     (forall p, In p pubs -> Pub.id p <> sel) ->
     nearbyPubs (afterJson (Overpass.Json (Some elements)) a) = Some pubs /\
     exists p,
       selectedPub loc pubs
         (selectedPubId (afterJson (Overpass.Json (Some elements)) a)) = Some p /\
       nearestFirst loc pubs p).
Proof.
  intros Hne. split; [| split].
  - intros sel Ht Hex. apply selectedPub_present; assumption.
  - intros sel Habs. rewrite selectedPub_absent by assumption.
    apply sorted_head_nearest. assumption.
  - intros sel a elements Hsel Hmap Habs.
    assert (Hsame : sameFields (afterJson (Overpass.Json (Some elements)) a)
                               (withPubs (Some pubs) a)).
    { unfold afterJson. rewrite Hmap. apply updateUI_sameFields. }
    destruct Hsame as (_ & _ & Hpubs & Hid & _).
    split; [rewrite Hpubs; reflexivity |].
    rewrite Hid. cbn [selectedPubId withPubs]. rewrite Hsel.
    rewrite selectedPub_absent by assumption.
    apply sorted_head_nearest. assumption.
Qed.

Lemma selectedPub_resolution_witness :
  (exists p, selectedPub Example.origin Sample.threePubs (IdNum 9) = Some p /\
             In p Sample.threePubs /\ Pub.id p = IdNum 9) /\
  (exists p, selectedPub Example.origin Sample.threePubs (IdNum 99) = Some p /\
             nearestFirst Example.origin Sample.threePubs p) /\
  nearbyPubs (afterJson (Overpass.Json (Some Sample.threeElements))
                        (withSelected (IdNum 99) Example.atOrigin))
    = Some Sample.threePubs /\
  exists p,
    selectedPub Example.origin Sample.threePubs
      (selectedPubId (afterJson (Overpass.Json (Some Sample.threeElements))
                                (withSelected (IdNum 99) Example.atOrigin))) = Some p /\
    nearestFirst Example.origin Sample.threePubs p.
Proof.
  assert (Habsent : forall p, In p Sample.threePubs -> Pub.id p <> IdNum 99).
  { intros p [<- | [<- | [<- | []]]]; discriminate. }
  destruct (selectedPub_resolution Example.origin Sample.threePubs ltac:(discriminate))
    as (Hpresent & Hnone & Hreplaced).
  split; [| split].
  - apply Hpresent; [reflexivity |].
    exists Sample.anchor. split; [right; right; left; reflexivity | reflexivity].
  - apply Hnone. exact Habsent.
  - apply (Hreplaced (IdNum 99)); [reflexivity | reflexivity | exact Habsent].
Defined.

(** C10: a selection that is not truthy (the number 0, the empty string,
    [null], [undefined]) is not looked up: the nearest pub is returned,
    whether or not a member carries that id. *)
Theorem falsy_selection_ignored (loc : Coordinates) (pubs : list Pub.t) (sel : JsId) :
  truthy sel = false ->
  pubs <> [] ->
  exists p, selectedPub loc pubs sel = Some p /\ nearestFirst loc pubs p.
Proof.
  intros Hf Hne. rewrite selectedPub_falsy by assumption.
  apply sorted_head_nearest. assumption.
Qed.

Lemma falsy_selection_ignored_witness :
  truthy (IdNum 0) = false /\
  In Example.farPub Example.pubs /\ Pub.id Example.farPub = IdNum 0 /\
  exists p, selectedPub Example.origin Example.pubs (IdNum 0) = Some p /\
            nearestFirst Example.origin Example.pubs p.
Proof.
  split; [reflexivity |].
  split; [left; reflexivity |].
  split; [reflexivity |].
  apply (falsy_selection_ignored Example.origin Example.pubs (IdNum 0)).
  - reflexivity.
  - discriminate.
Defined.

(** ** The distance string *)

Lemma distanceStr_metres (d : R) :
  0 <= d <= 1000 ->
  exists n : Z,
    (0 <= n)%Z /\ IZR n - / 2 <= d < IZR n + / 2 /\
    distanceStr d = Some (JsFormat.decimal n ++ "m")%string.
Proof.
  intros [Hlo Hhi].
  assert (Hpow : 1000 < 10 ^ 21) by (simpl; lra).
  destruct (toFixed_defined d 0 ltac:(lra)) as (n & Hn0 & Hn & Hfix).
  exists n. split; [assumption |]. simpl in Hn. split; [lra |].
  unfold distanceStr. destruct (Rlt_dec 1000 d) as [H | _]; [lra |].
  rewrite Hfix. reflexivity.
Qed.

Lemma distanceStr_kilometres (d : R) :
  1000 < d < 10 ^ 24 ->
  exists km hundredths : Z,
    (1 <= km)%Z /\ (0 <= hundredths < 100)%Z /\
    IZR (100 * km + hundredths) - / 2 <= d / 10
      <= IZR (100 * km + hundredths) + / 2 /\
    distanceStr d =
    Some (JsFormat.decimal km ++ "." ++
          String (JsFormat.digitChar (hundredths / 10))
                 (String (JsFormat.digitChar (hundredths mod 10)) "") ++
          "km")%string.
Proof.
  intros [Hlo Hhi].
  assert (Hrange : 0 <= d / 1000 < 10 ^ 21) by (simpl in *; lra).
  destruct (toFixed_defined (d / 1000) 2 Hrange) as (n & Hn0 & Hn & Hfix).
  simpl in Hn.
  assert (H100 : (100 <= n)%Z).
  { assert (IZR 99 < IZR n) by lra.
    apply lt_IZR in H. lia. }
  exists (n / 100)%Z, (n mod 100)%Z.
  assert (Hsplit : (100 * (n / 100) + n mod 100)%Z = n)
    by (symmetry; apply Z.div_mod; lia).
  split; [apply Z.div_le_lower_bound; lia |].
  split; [apply Z.mod_pos_bound; lia |].
  rewrite Hsplit. split; [lra |].
  unfold distanceStr. destruct (Rlt_dec 1000 d) as [_ | H]; [| lra].
  rewrite Hfix. unfold option_map.
  rewrite formatFixed_two_places by assumption.
  rewrite !append_assoc. reflexivity.
Qed.

(** C2, as stated, fails at exactly 1000 m, where the metre form is used. *)
Lemma distanceStr_1000_is_metres :
  distanceStr 1000 = Some "1000m"%string /\
  distanceStr 1000 <> Some "1.00km"%string.
Proof.
  rewrite distanceStr_1000. split; [reflexivity | discriminate].
Qed.

(** C2 (amended): up to and including 1000 m the string is the distance
    rounded to a whole number of metres, then "m"; above 1000 m it is the
    distance in kilometres rounded to hundredths, written with exactly two
    places after the point, then "km".  999 gives "999m", 1500 gives
    "1.50km" and 1000 gives "1000m". *)
Theorem distanceStr_format :
  (forall d : R,
     0 <= d <= 1000 ->
     exists n : Z,
       (0 <= n)%Z /\ IZR n - / 2 <= d < IZR n + / 2 /\
       distanceStr d = Some (JsFormat.decimal n ++ "m")%string) /\
  (forall d : R,
     1000 < d < 10 ^ 24 ->
     exists km hundredths : Z,
       (1 <= km)%Z /\ (0 <= hundredths < 100)%Z /\
       IZR (100 * km + hundredths) - / 2 <= d / 10
         <= IZR (100 * km + hundredths) + / 2 /\
       distanceStr d =
       Some (JsFormat.decimal km ++ "." ++
             String (JsFormat.digitChar (hundredths / 10))
                    (String (JsFormat.digitChar (hundredths mod 10)) "") ++
             "km")%string) /\
  distanceStr 999 = Some "999m"%string /\
  distanceStr 1500 = Some "1.50km"%string /\
  distanceStr 1000 = Some "1000m"%string.
Proof.
  split; [exact distanceStr_metres |].
  split; [exact distanceStr_kilometres |].
  split; [exact distanceStr_999 |].
  split; [exact distanceStr_1500 | exact distanceStr_1000].
Qed.

Lemma distanceStr_format_witness :
  (exists n : Z,
     (0 <= n)%Z /\ IZR n - / 2 <= 250 < IZR n + / 2 /\
     distanceStr 250 = Some (JsFormat.decimal n ++ "m")%string) /\
  (exists km hundredths : Z,
     (1 <= km)%Z /\ (0 <= hundredths < 100)%Z /\
     IZR (100 * km + hundredths) - / 2 <= 2345 / 10
       <= IZR (100 * km + hundredths) + / 2 /\
     distanceStr 2345 =
     Some (JsFormat.decimal km ++ "." ++
           String (JsFormat.digitChar (hundredths / 10))
                  (String (JsFormat.digitChar (hundredths mod 10)) "") ++
           "km")%string).
Proof.
  split.
  - apply (proj1 distanceStr_format 250). lra.
  - apply (proj1 (proj2 distanceStr_format) 2345). simpl. lra.
Defined.


(** ** The refresh policy and the in-flight flag *)

Lemma movedEnough_spec (oldCoords : option Coordinates) (cur : Coordinates) :
  movedEnough oldCoords cur = true <->
  oldCoords = None \/
  exists old, oldCoords = Some old /\
              250 <= haversineDistance (latitude cur) (longitude cur)
                                       (latitude old) (longitude old).
Proof.
  unfold movedEnough. destruct oldCoords as [old |].
  - destruct (Rlt_dec _ 250) as [Hlt | Hge]; split.
    + discriminate.
    + intros [H | (o & [= <-] & Hd)]; [discriminate | lra].
    + intros _. right. exists old. split; [reflexivity | lra].
    + reflexivity.
  - split; [auto | reflexivity].
Qed.

Lemma setCoords_dropped (coords : Coordinates) (s : System) :
  _pendingFetch (app s) = true ->
  inflight (setCoords coords s) = inflight s /\
  _pendingFetch (app (setCoords coords s)) = true.
Proof.
  intros Hp. unfold setCoords.
  assert (Hu : _pendingFetch (updateUI (withLocation (Some coords) (app s))) = true)
    by (rewrite updateUI_pending; exact Hp).
  destruct (movedEnough (currentLocation (app s)) coords);
    rewrite ?Hu; simpl; auto.
Qed.

Lemma setCoords_not_moved (coords : Coordinates) (s : System) :
  movedEnough (currentLocation (app s)) coords = false ->
  inflight (setCoords coords s) = inflight s /\
  _pendingFetch (app (setCoords coords s)) = _pendingFetch (app s).
Proof.
  intros Hm. unfold setCoords. rewrite Hm. simpl.
  split; [reflexivity | rewrite updateUI_pending; reflexivity].
Qed.

Lemma setCoords_fetches (coords : Coordinates) (s : System) :
  _pendingFetch (app s) = false ->
  movedEnough (currentLocation (app s)) coords = true ->
  inflight (setCoords coords s) = inflight s ++ [AwaitingResponse coords] /\
  _pendingFetch (app (setCoords coords s)) = true.
Proof.
  intros Hp Hm. unfold setCoords. rewrite Hm.
  assert (Hu : _pendingFetch (updateUI (withLocation (Some coords) (app s))) = false)
    by (rewrite updateUI_pending; exact Hp).
  rewrite Hu. simpl. auto.
Qed.

Lemma setCoords_location (coords : Coordinates) (s : System) :
  currentLocation (app (setCoords coords s)) = Some coords.
Proof.
  unfold setCoords.
  pose proof (updateUI_sameFields (withLocation (Some coords) (app s))) as (Hl & _).
  destruct (movedEnough (currentLocation (app s)) coords);
    [destruct (negb _) |]; simpl; exact Hl.
Qed.

Lemma append_one_differs {A : Type} (l : list A) (x : A) : l <> l ++ [x].
Proof.
  intros H. apply (f_equal (@List.length A)) in H.
  rewrite length_app in H. simpl in H. lia.
Qed.

Lemma startsFetch_iff (coords : Coordinates) (s : System) :
  startsFetch coords s <->
  _pendingFetch (app s) = false /\
  movedEnough (currentLocation (app s)) coords = true.
Proof.
  unfold startsFetch. split.
  - intros Hs.
    destruct (_pendingFetch (app s)) eqn:Hp.
    + destruct (setCoords_dropped coords s Hp) as [Hi _].
      rewrite Hi in Hs. exfalso. exact (append_one_differs _ _ Hs).
    + destruct (movedEnough (currentLocation (app s)) coords) eqn:Hm; [auto |].
      destruct (setCoords_not_moved coords s Hm) as [Hi _].
      rewrite Hi in Hs. exfalso. exact (append_one_differs _ _ Hs).
  - intros [Hp Hm]. apply setCoords_fetches; assumption.
Qed.

Lemma not_startsFetch_unchanged (coords : Coordinates) (s : System) :
  ~ startsFetch coords s -> inflight (setCoords coords s) = inflight s.
Proof.
  intros Hn. destruct (_pendingFetch (app s)) eqn:Hp.
  - apply setCoords_dropped. assumption.
  - destruct (movedEnough (currentLocation (app s)) coords) eqn:Hm.
    + exfalso. apply Hn. apply startsFetch_iff. auto.
    + apply setCoords_not_moved. assumption.
Qed.

Lemma afterFetch_sameFields (response : option Overpass.Response)
    (a : Application) :
  sameFields (fst (afterFetch response a)) a.
Proof.
  unfold afterFetch. destruct response as [r |]; [| apply sameFields_refl].
  destruct (negb (Overpass.ok r)); simpl; [| apply sameFields_refl].
  repeat split.
Qed.

(** Reading the body changes no field but [nearbyPubs] and [dom]. *)
Lemma afterJson_fields (body : Overpass.Body) (a : Application) :
  currentLocation (afterJson body a) = currentLocation a /\
  currentHeading (afterJson body a) = currentHeading a /\
  selectedPubId (afterJson body a) = selectedPubId a /\
  _pendingFetch (afterJson body a) = _pendingFetch a.
Proof.
  unfold afterJson. destruct body as [| elements]; [repeat split |].
  destruct (mapToPub _) as [results |]; [| repeat split].
  destruct (updateUI_sameFields (withPubs (Some results) a))
    as (H1 & H2 & _ & H4 & H5).
  repeat split; assumption.
Qed.

Lemma single_task {A : Type} (l : list A) (i : nat) (t : A) :
  (List.length l <= 1)%nat -> nth_error l i = Some t -> l = [t] /\ i = 0%nat.
Proof.
  intros Hlen Hnth. destruct l as [| x [| y l]]; simpl in Hlen.
  - destruct i; discriminate.
  - destruct i as [| i]; simpl in Hnth.
    + injection Hnth as ->. auto.
    + destruct i; discriminate.
  - lia.
Qed.

Lemma handle_singleFlight (e : Event) (s s' : System) :
  singleFlight s -> handle e s = Some s' -> singleFlight s'.
Proof.
  intros [Hlen Hflag] Hh. destruct e as [coords | alpha | pub | i r | i body];
    cbn [handle] in Hh.
  - injection Hh as <-.
    destruct (_pendingFetch (app s)) eqn:Hp.
    + destruct (setCoords_dropped coords s Hp) as [Hi Hq].
      split; rewrite Hi; [assumption |]. rewrite Hq. tauto.
    + destruct (movedEnough (currentLocation (app s)) coords) eqn:Hm.
      * destruct (setCoords_fetches coords s Hp Hm) as [Hi Hq].
        assert (Hnil : inflight s = []).
        { destruct (inflight s) as [| t l]; [reflexivity |].
          assert (false = true) by (apply Hflag; discriminate). discriminate. }
        unfold singleFlight. rewrite Hi, Hq, Hnil. simpl. split; [lia |].
        split; [discriminate | reflexivity].
      * destruct (setCoords_not_moved coords s Hm) as [Hi Hq].
        split; rewrite Hi; [assumption |]. rewrite Hq, Hp. exact Hflag.
  - injection Hh as <-. unfold singleFlight. cbn [app inflight].
    split; [assumption |]. unfold setHeading.
    destruct (updateBearingUI_sameFields (withHeading (Some (360 - alpha)) (app s)))
      as (_ & _ & _ & _ & Hq).
    rewrite Hq. exact Hflag.
  - injection Hh as <-. unfold singleFlight. cbn [app inflight].
    split; [assumption |].
    destruct (updateUI_sameFields (withSelected (Pub.id pub) (app s)))
      as (_ & _ & _ & _ & Hq).
    rewrite Hq. exact Hflag.
  - destruct (nth_error (inflight s) i) as [[origin |] |] eqn:Hnth; try discriminate.
    destruct (single_task _ _ _ Hlen Hnth) as [Hl ->].
    pose proof (afterFetch_sameFields r (app s)) as (_ & _ & _ & _ & Hq).
    destruct (afterFetch r (app s)) as [a [|]]; injection Hh as <-;
      unfold singleFlight; cbn [app inflight fst] in *; rewrite Hl in *.
    + split; [simpl; lia |]. rewrite Hq.
      split; [intros _; discriminate |]. intros _. apply Hflag. discriminate.
    + split; [simpl; lia |]. split; [discriminate | intros H; elim H; reflexivity].
  - destruct (nth_error (inflight s) i) as [[origin |] |] eqn:Hnth; try discriminate.
    destruct (single_task _ _ _ Hlen Hnth) as [Hl ->].
    injection Hh as <-. unfold singleFlight. cbn [app inflight]. rewrite Hl.
    split; [simpl; lia |]. split; [discriminate | intros H; elim H; reflexivity].
Qed.

Lemma reachable_singleFlight (s : System) : reachable s -> singleFlight s.
Proof.
  induction 1 as [| s s' e _ IH Hh].
  - split; simpl; [lia |]. split; [discriminate | congruence].
  - exact (handle_singleFlight e s s' IH Hh).
Qed.

(** Until the first fix no fetch has been started. *)
Lemma reachable_no_fix_no_fetch (s : System) :
  reachable s -> currentLocation (app s) = None -> _pendingFetch (app s) = false.
Proof.
  induction 1 as [| s s' e _ IH Hh]; [reflexivity |].
  destruct e as [coords | alpha | pub | i r | i body]; cbn [handle] in Hh.
  - injection Hh as <-. rewrite setCoords_location. discriminate.
  - injection Hh as <-. cbn [app]. unfold setHeading.
    destruct (updateBearingUI_sameFields (withHeading (Some (360 - alpha)) (app s)))
      as (Hl & _ & _ & _ & Hq).
    rewrite Hl, Hq. exact IH.
  - injection Hh as <-. cbn [app].
    destruct (updateUI_sameFields (withSelected (Pub.id pub) (app s)))
      as (Hl & _ & _ & _ & Hq).
    rewrite Hl, Hq. exact IH.
  - destruct (nth_error (inflight s) i) as [[origin |] |]; try discriminate.
    pose proof (afterFetch_sameFields r (app s)) as (Hl & _ & _ & _ & Hq).
    destruct (afterFetch r (app s)) as [a [|]]; injection Hh as <-;
      cbn [app fst] in *.
    + rewrite Hl, Hq. exact IH.
    + reflexivity.
  - destruct (nth_error (inflight s) i) as [[origin |] |]; try discriminate.
    injection Hh as <-. reflexivity.
Qed.

Lemma handle_endsFetch (e : Event) (s s' : System) :
  singleFlight s -> endsFetch e = true -> handle e s = Some s' ->
  _pendingFetch (app s') = false /\ inflight s' = [].
Proof.
  intros [Hlen _] He Hh.
  destruct e as [coords | alpha | pub | i r | i body];
    cbn [handle endsFetch] in He, Hh; try discriminate.
  - destruct (nth_error (inflight s) i) as [[origin |] |] eqn:Hnth; try discriminate.
    destruct (single_task _ _ _ Hlen Hnth) as [Hl ->].
    unfold afterFetch in Hh. destruct r as [r |].
    + rewrite He in Hh. injection Hh as <-. rewrite Hl. auto.
    + injection Hh as <-. rewrite Hl. auto.
  - destruct (nth_error (inflight s) i) as [[origin |] |] eqn:Hnth; try discriminate.
    destruct (single_task _ _ _ Hlen Hnth) as [Hl ->].
    injection Hh as <-. rewrite Hl. auto.
Qed.

(** ** The scenarios *)

Lemma firstFix_state :
  inflight Scenario.firstFix = [AwaitingResponse Example.origin] /\
  _pendingFetch (app Scenario.firstFix) = true /\
  currentLocation (app Scenario.firstFix) = Some Example.origin /\
  statusPane (dom (app Scenario.firstFix)) =
    Some ("info", "Fetching nearby pubs")%string.
Proof. repeat split. Qed.

Lemma firstFix_reachable : reachable Scenario.firstFix.
Proof.
  apply (reachable_step initial _ (Position Example.origin)).
  - apply reachable_initial.
  - reflexivity.
Qed.

Lemma idle_reachable : reachable Scenario.idle.
Proof.
  apply (reachable_step Scenario.firstFix _ (FetchSettled 0 None)).
  - apply firstFix_reachable.
  - reflexivity.
Qed.

Lemma awaitingBody_reachable : reachable Scenario.awaitingBody.
Proof.
  apply (reachable_step Scenario.firstFix _
           (FetchSettled 0 (Some Example.okResponse))).
  - apply firstFix_reachable.
  - reflexivity.
Qed.

Lemma north334_far_enough :
  250 <= haversineDistance (latitude Example.north334) (longitude Example.north334)
                           (latitude Example.origin) (longitude Example.origin).
Proof.
  simpl. rewrite haversineDistance_sym.
  rewrite haversineDistance_meridian by lra.
  unfold degToRad. pose proof PI2_3_2. lra.
Qed.

Lemma north111_too_near :
  haversineDistance (latitude Example.north111) (longitude Example.north111)
                    (latitude Example.origin) (longitude Example.origin) < 250.
Proof.
  simpl. rewrite haversineDistance_sym.
  rewrite haversineDistance_meridian by lra.
  unfold degToRad. pose proof PI_4. lra.
Qed.

(** ** Fetch results *)

Lemma afterFetch_keeps_candidates (response : option Overpass.Response)
    (a : Application) :
  nearbyPubs (fst (afterFetch response a)) = nearbyPubs a /\
  selectedPubId (fst (afterFetch response a)) = selectedPubId a.
Proof.
  destruct (afterFetch_sameFields response a) as (_ & _ & H3 & H4 & _). auto.
Qed.

Lemma afterFetch_not_ok (response : Overpass.Response) (a : Application) :
  Overpass.ok response = false ->
  statusPane (dom (fst (afterFetch (Some response) a))) =
  Some ("error",
        "Error fetching local pubs: " ++ JsFormat.decimal (Overpass.status response))%string.
Proof. intros H. unfold afterFetch. rewrite H. reflexivity. Qed.

Lemma afterJson_throws (elements : list Overpass.Element) (a : Application) :
  mapToPub elements = None -> afterJson (Overpass.Json (Some elements)) a = a.
Proof. intros H. unfold afterJson. rewrite H. reflexivity. Qed.

Lemma afterJson_replaces (elements : list Overpass.Element) (results : list Pub.t)
    (a : Application) :
  mapToPub elements = Some results ->
  nearbyPubs (afterJson (Overpass.Json (Some elements)) a) = Some results /\
  selectedPubId (afterJson (Overpass.Json (Some elements)) a) = selectedPubId a.
Proof.
  intros H. unfold afterJson. rewrite H.
  destruct (updateUI_sameFields (withPubs (Some results) a)) as (_ & _ & H3 & H4 & _).
  auto.
Qed.

(** C3: what the code does on the two kinds of failed fetch.  A response
    that is not ok leaves the candidate set and the selection as they were
    and shows an error status.  A body that cannot be read, or a record
    without [tags], also leaves them as they were, and leaves the status
    pane as it was too: no error is shown, the pane still reads
    "Fetching nearby pubs". *)
Theorem malformed_reply_shows_no_error :
  (forall (a : Application) (response : Overpass.Response),
     Overpass.ok response = false ->
     let a' := fst (afterFetch (Some response) a) in
     nearbyPubs a' = nearbyPubs a /\ selectedPubId a' = selectedPubId a /\
     exists msg, statusPane (dom a') = Some ("error"%string, msg)) /\
  (forall a : Application, afterJson Overpass.Malformed a = a) /\
  (forall (a : Application) (elements : list Overpass.Element),
     mapToPub elements = None ->
     afterJson (Overpass.Json (Some elements)) a = a) /\
  (exists s,
     run [Position Example.origin;
          FetchSettled 0 (Some Example.okResponse);
          JsonSettled 0 Overpass.Malformed] initial = Some s /\
     statusPane (dom (app s)) = Some ("info", "Fetching nearby pubs")%string /\
     nearbyPubs (app s) = None /\
     _pendingFetch (app s) = false) /\
  (exists s,
     run [Position Example.origin;
          FetchSettled 0 (Some Example.okResponse);
          JsonSettled 0 (Overpass.Json (Some [Example.untagged]))] initial = Some s /\
     statusPane (dom (app s)) = Some ("info", "Fetching nearby pubs")%string /\
     nearbyPubs (app s) = None) /\
  (exists s,
     run [Position Example.origin;
          FetchSettled 0 (Some Example.serverError)] initial = Some s /\
     statusPane (dom (app s)) =
       Some ("error", "Error fetching local pubs: 500")%string /\
     nearbyPubs (app s) = None).
Proof.
  split.
  { intros a response Hok a'.
    destruct (afterFetch_keeps_candidates (Some response) a) as [H1 H2].
    split; [exact H1 |]. split; [exact H2 |].
    eexists. apply afterFetch_not_ok. exact Hok. }
  split; [reflexivity |].
  split; [exact (fun a elements => afterJson_throws elements a) |].
  split; [eexists; repeat split |].
  split; eexists; repeat split.
Qed.

(** ** Location updates and the fetch in flight *)

(** C5, as stated, fails while a fetch is in flight: after the first fix a
    move of more than 250 m starts no fetch. *)
Lemma far_move_while_pending_starts_no_fetch :
  reachable Scenario.firstFix /\
  currentLocation (app Scenario.firstFix) = Some Example.origin /\
  250 <= haversineDistance (latitude Example.north334) (longitude Example.north334)
                           (latitude Example.origin) (longitude Example.origin) /\
  inflight (setCoords Example.north334 Scenario.firstFix) = inflight Scenario.firstFix /\
  ~ startsFetch Example.north334 Scenario.firstFix.
Proof.
  split; [apply firstFix_reachable |].
  split; [reflexivity |].
  split; [apply north334_far_enough |].
  split.
  - apply setCoords_dropped. reflexivity.
  - intros H. apply startsFetch_iff in H. destruct H as [H _]. discriminate.
Qed.

(** C5 (amended): while no fetch is in flight, a location update starts a
    fetch exactly when there was no previous coordinate or the previous
    coordinate is at least 250 m away; an update that starts no fetch leaves
    the fetches as they were.  Before the first fix no fetch is in flight, so
    the first fix always starts one; an update to the same coordinate starts
    none; with no fetch in flight a move of 300 m starts one and a move of
    100 m does not. *)
Theorem setCoords_refresh_policy :
  (forall (s : System) (coords : Coordinates),
     _pendingFetch (app s) = false ->
     (startsFetch coords s <->
      currentLocation (app s) = None \/
      exists old, currentLocation (app s) = Some old /\
                  250 <= haversineDistance (latitude coords) (longitude coords)
                                           (latitude old) (longitude old))) /\
  (forall (s : System) (coords : Coordinates),
     ~ startsFetch coords s -> inflight (setCoords coords s) = inflight s) /\
  (forall (s : System) (coords : Coordinates),
     reachable s -> currentLocation (app s) = None -> startsFetch coords s) /\
  (forall (s : System) (coords : Coordinates),
     currentLocation (app s) = Some coords -> ~ startsFetch coords s) /\
  (forall (s : System) (coords old : Coordinates),
     _pendingFetch (app s) = false ->
     currentLocation (app s) = Some old ->
     haversineDistance (latitude coords) (longitude coords)
                       (latitude old) (longitude old) = 300 ->
     startsFetch coords s) /\
  (forall (s : System) (coords old : Coordinates),
     currentLocation (app s) = Some old ->
     haversineDistance (latitude coords) (longitude coords)
                       (latitude old) (longitude old) = 100 ->
     ~ startsFetch coords s).
Proof.
  split; [| split; [| split; [| split; [| split]]]].
  - intros s coords Hp. rewrite startsFetch_iff, movedEnough_spec. tauto.
  - exact (fun s coords => not_startsFetch_unchanged coords s).
  - intros s coords Hr Hl. apply startsFetch_iff.
    split; [apply reachable_no_fix_no_fetch; assumption |].
    rewrite Hl. reflexivity.
  - intros s coords Hl H. apply startsFetch_iff in H. destruct H as [_ H].
    apply movedEnough_spec in H. rewrite Hl in H.
    destruct H as [H | (old & [= <-] & Hd)]; [discriminate |].
    rewrite haversineDistance_same in Hd. lra.
  - intros s coords old Hp Hl Hd. apply startsFetch_iff. split; [assumption |].
    apply movedEnough_spec. right. exists old. split; [assumption | lra].
  - intros s coords old Hl Hd H. apply startsFetch_iff in H. destruct H as [_ H].
    apply movedEnough_spec in H. rewrite Hl in H.
    destruct H as [H | (o & [= <-] & Hd')]; [discriminate | lra].
Qed.

Lemma setCoords_refresh_policy_witness :
  startsFetch Example.origin initial /\
  startsFetch Example.north334 Scenario.idle /\
  inflight (setCoords Example.north111 Scenario.idle) = inflight Scenario.idle.
Proof.
  split; [| split].
  - apply (proj1 (proj2 (proj2 setCoords_refresh_policy)) initial Example.origin).
    + apply reachable_initial.
    + reflexivity.
  - apply (proj1 setCoords_refresh_policy Scenario.idle Example.north334).
    + reflexivity.
    + right. exists Example.origin. split; [reflexivity | apply north334_far_enough].
  - apply (proj1 (proj2 setCoords_refresh_policy) Scenario.idle Example.north111).
    intros H.
    apply (proj1 setCoords_refresh_policy Scenario.idle Example.north111) in H.
    + destruct H as [H | (old & [= <-] & Hd)]; [discriminate |].
      pose proof north111_too_near. lra.
    + reflexivity.
Defined.

(** C6: in every reachable state at most one fetch is in flight, and the
    flag is set exactly while one is; a location update that arrives while
    the flag is set starts no fetch and queues none; when the fetch settles,
    with a result or a failure, the flag is cleared and nothing is left in
    flight; from then on a qualifying move starts a new fetch. *)
Theorem single_flight_invariant :
  (forall s : System, reachable s -> singleFlight s) /\
  (forall (s : System) (coords : Coordinates),
     _pendingFetch (app s) = true ->
     inflight (setCoords coords s) = inflight s /\
     _pendingFetch (app (setCoords coords s)) = true) /\
  (forall (s s' : System) (e : Event),
     reachable s -> endsFetch e = true -> handle e s = Some s' ->
     _pendingFetch (app s') = false /\ inflight s' = []) /\
  (forall (s : System) (coords : Coordinates),
     _pendingFetch (app s) = false ->
     movedEnough (currentLocation (app s)) coords = true ->
     inflight (setCoords coords s) = inflight s ++ [AwaitingResponse coords] /\
     _pendingFetch (app (setCoords coords s)) = true).
Proof.
  split; [exact reachable_singleFlight |].
  split; [exact (fun s coords => setCoords_dropped coords s) |].
  split.
  - intros s s' e Hr He Hh.
    exact (handle_endsFetch e s s' (reachable_singleFlight s Hr) He Hh).
  - exact (fun s coords => setCoords_fetches coords s).
Qed.

Lemma single_flight_invariant_witness :
  singleFlight Scenario.firstFix /\
  inflight (setCoords Example.north334 Scenario.firstFix) = inflight Scenario.firstFix /\
  _pendingFetch (app Scenario.idle) = false /\
  inflight (setCoords Example.north334 Scenario.idle)
    = [AwaitingResponse Example.north334].
Proof.
  split; [| split; [| split]].
  - apply (proj1 single_flight_invariant). apply firstFix_reachable.
  - apply (proj1 (proj2 single_flight_invariant)). reflexivity.
  - apply (proj1 (proj2 (proj2 single_flight_invariant))
             Scenario.firstFix Scenario.idle (FetchSettled 0 None)).
    + apply firstFix_reachable.
    + reflexivity.
    + reflexivity.
  - apply (proj2 (proj2 (proj2 single_flight_invariant))
             Scenario.idle Example.north334).
    + reflexivity.
    + apply movedEnough_spec. right. exists Example.origin.
      split; [reflexivity | apply north334_far_enough].
Defined.

(** ** The display *)

Lemma insertSorted_Permutation {A : Type} (compareFn : A -> A -> R) (x : A)
    (l : list A) :
  Permutation (insertSorted compareFn x l) (x :: l).
Proof.
  induction l as [| y l IH]; simpl; [apply Permutation_refl |].
  destruct (Rle_dec (compareFn x y) 0); [apply Permutation_refl |].
  apply perm_trans with (y :: x :: l); [| apply perm_swap].
  apply perm_skip. exact IH.
Qed.

Lemma toSorted_Permutation {A : Type} (compareFn : A -> A -> R) (l : list A) :
  Permutation (toSorted compareFn l) l.
Proof.
  induction l as [| x l IH]; simpl; [apply perm_nil |].
  apply perm_trans with (x :: toSorted compareFn l).
  - apply insertSorted_Permutation.
  - apply perm_skip. exact IH.
Qed.

Lemma createLinkElem_pub (loc : Coordinates) (sel : JsId) (l : list Pub.t) :
  map item_pub (map (createLinkElem loc sel) l) = l.
Proof.
  induction l as [| p l IH]; simpl; [reflexivity |].
  rewrite IH. reflexivity.
Qed.

Lemma updateBearingUI_keeps_list (a : Application) :
  pubListElem (dom (updateBearingUI a)) = pubListElem (dom a) /\
  nameDiv (dom (updateBearingUI a)) = nameDiv (dom a) /\
  distanceDiv (dom (updateBearingUI a)) = distanceDiv (dom a).
Proof.
  unfold updateBearingUI.
  destruct (ready a) as [[loc pubs] |]; [| auto].
  destruct (selectedPub loc pubs (selectedPubId a)); auto.
Qed.

Lemma updateUI_ready (a : Application) (loc : Coordinates) (pubs : list Pub.t)
    (closestPub : Pub.t) :
  ready a = Some (loc, pubs) ->
  selectedPub loc pubs (selectedPubId a) = Some closestPub ->
  statusPane (dom (updateUI a)) = None /\
  distanceDiv (dom (updateUI a)) =
    distanceStr (distanceFrom loc closestPub) /\
  nameDiv (dom (updateUI a)) = Some (displayName closestPub) /\
  pubListElem (dom (updateUI a)) =
    Some (map (createLinkElem loc (selectedPubId a))
              (toSorted (distanceSort loc) pubs)).
Proof.
  intros Hr Hs. unfold updateUI. rewrite Hr. cbn zeta.
  change (selectedPubId (clearStatus a)) with (selectedPubId a). rewrite Hs.
  match goal with |- context [updateBearingUI ?x] =>
    destruct (updateBearingUI_keeps_list x) as (Hl & Hn & Hd);
    rewrite Hl, Hn, Hd, (updateBearingUI_status x)
  end.
  repeat split.
Qed.

(** X1: the list shown after an update holds the candidate set, nearest
    first. *)
Theorem pub_list_sorted_by_distance (a : Application) (loc : Coordinates)
    (pubs : list Pub.t) :
  ready a = Some (loc, pubs) ->
  exists items : list ListItem,
    pubListElem (dom (updateUI a)) = Some items /\
    Permutation (map item_pub items) pubs /\
    StronglySorted (fun p q => distanceFrom loc p <= distanceFrom loc q)
                   (map item_pub items).
Proof.
  intros Hr. destruct (ready_nonempty a loc pubs Hr) as (_ & _ & Hne).
  destruct (selectedPub_nonempty loc pubs (selectedPubId a) Hne) as [p Hp].
  destruct (updateUI_ready a loc pubs p Hr Hp) as (_ & _ & _ & Hlist).
  eexists. split; [exact Hlist |].
  rewrite createLinkElem_pub. split.
  - apply toSorted_Permutation.
  - apply (toSorted_sorted (distanceFrom loc)).
Qed.

Lemma pub_list_sorted_by_distance_witness :
  exists items : list ListItem,
    pubListElem (dom (updateUI Example.atOrigin)) = Some items /\
    Permutation (map item_pub items) Example.pubs /\
    StronglySorted
      (fun p q => distanceFrom Example.origin p <= distanceFrom Example.origin q)
      (map item_pub items).
Proof.
  exact (pub_list_sorted_by_distance Example.atOrigin Example.origin Example.pubs
           eq_refl).
Defined.

(** X2: a target without a name is shown as "Unnamed Pub". *)
Theorem unnamed_pub_label (a : Application) (loc : Coordinates)
    (pubs : list Pub.t) (closestPub : Pub.t) :
  ready a = Some (loc, pubs) ->
  selectedPub loc pubs (selectedPubId a) = Some closestPub ->
  Pub.name closestPub = None ->
  nameDiv (dom (updateUI a)) = Some "Unnamed Pub"%string.
Proof.
  intros Hr Hs Hn.
  destruct (updateUI_ready a loc pubs closestPub Hr Hs) as (_ & _ & Hname & _).
  rewrite Hname. unfold displayName. rewrite Hn. reflexivity.
Qed.

Lemma unnamed_pub_label_witness :
  nameDiv (dom (updateUI Example.atOrigin)) = Some "Unnamed Pub"%string.
Proof.
  apply (unnamed_pub_label Example.atOrigin Example.origin Example.pubs
           Example.nearPub).
  - reflexivity.
  - rewrite selectedPub_falsy by reflexivity. apply example_sorted_head.
  - reflexivity.
Defined.

(** X3: a reply without records is no error: the candidate set becomes empty
    and the page stays as it was. *)
Theorem empty_reply_leaves_display (a : Application) :
  nearbyPubs (afterJson (Overpass.Json (Some [])) a) = Some [] /\
  nearbyPubs (afterJson (Overpass.Json None) a) = Some [] /\
  dom (afterJson (Overpass.Json (Some [])) a) = dom a /\
  dom (afterJson (Overpass.Json None) a) = dom a.
Proof.
  assert (H : afterJson (Overpass.Json (Some [])) a = withPubs (Some []) a).
  { unfold afterJson. simpl. apply updateUI_not_ready.
    unfold ready. simpl. destruct (currentLocation a); reflexivity. }
  assert (H' : afterJson (Overpass.Json None) a = withPubs (Some []) a) by exact H.
  rewrite H, H'. repeat split.
Qed.

(** ** More on the geo math *)


Lemma haversineFunc_half_angle (theta : R) :
  haversineFunc theta = sin (degToRad theta / 2) * sin (degToRad theta / 2).
Proof.
  unfold haversineFunc.
  replace (degToRad theta) with (2 * (degToRad theta / 2)) at 1 by field.
  rewrite cos_2a_sin. field.
Qed.

(** The angle of an arc of up to half a turn is recovered from its
    haversine. *)
Lemma asin_sqrt_haversineFunc (theta : R) :
  0 <= theta <= 180 ->
  asin (sqrt (haversineFunc theta)) = degToRad theta / 2.
Proof.
  intros [Hlo Hhi]. pose proof PI_RGT_0 as Hpi.
  assert (Hh : 0 <= degToRad theta / 2 <= PI / 2) by (unfold degToRad; split; nra).
  rewrite haversineFunc_half_angle.
  rewrite sqrt_square by (apply sin_ge_0; lra).
  apply asin_sin. lra.
Qed.

Lemma degToRad_full_turn (d : R) : degToRad (d + 360) = degToRad d + 2 * PI.
Proof. unfold degToRad. field. Qed.

Lemma cos_full_turn (x : R) : cos (x + 2 * PI) = cos x.
Proof. rewrite cos_plus, cos_2PI, sin_2PI. ring. Qed.

Lemma haversineFunc_full_turn (theta : R) :
  haversineFunc (theta + 360) = haversineFunc theta.
Proof.
  unfold haversineFunc. rewrite degToRad_full_turn, cos_full_turn. reflexivity.
Qed.



(** X5: between two points on one meridian, and between two points on the
    equator, the distance is the radius times the angle between them. *)
Theorem haversineDistance_arc_length (a b : R) :
  Rabs (b - a) <= 180 ->
  (forall lon : R,
     haversineDistance a lon b lon = 6371000 * degToRad (Rabs (b - a))) /\
  haversineDistance 0 a 0 b = 6371000 * degToRad (Rabs (b - a)).
Proof.
  intros Habs.
  assert (Harc : asin (sqrt (haversineFunc (b - a))) = degToRad (Rabs (b - a)) / 2).
  { destruct (Rle_dec 0 (b - a)) as [Hpos | Hneg].
    - rewrite Rabs_right in * by lra. apply asin_sqrt_haversineFunc. lra.
    - rewrite Rabs_left in * by lra.
      rewrite (haversineFunc_even b a).
      replace (- (b - a)) with (a - b) by ring.
      apply asin_sqrt_haversineFunc. lra. }
  split.
  - intros lon. unfold haversineDistance.
    replace (lon - lon) with 0 by ring. rewrite haversineFunc_0.
    replace (haversineFunc (b - a) + cos (degToRad a) * cos (degToRad b) * 0)
      with (haversineFunc (b - a)) by ring.
    rewrite Harc. field.
  - unfold haversineDistance.
    replace (0 - 0) with 0 by ring. rewrite haversineFunc_0, degToRad_0, cos_0.
    replace (0 + 1 * 1 * haversineFunc (b - a)) with (haversineFunc (b - a)) by ring.
    rewrite Harc. field.
Qed.

Lemma haversineDistance_arc_length_witness :
  (forall lon : R,
     haversineDistance 10 lon (-20) lon = 6371000 * degToRad (Rabs (-20 - 10))) /\
  haversineDistance 0 10 0 (-20) = 6371000 * degToRad (Rabs (-20 - 10)).
Proof.
  apply (haversineDistance_arc_length 10 (-20)).
  rewrite Rabs_left by lra. lra.
Defined.

(** X6: either longitude may be given a full turn further on without
    changing the distance. *)
Theorem longitude_full_turn (lat1 lon1 lat2 lon2 : R) :
  haversineDistance lat1 lon1 lat2 (lon2 + 360) = haversineDistance lat1 lon1 lat2 lon2 /\
  haversineDistance lat1 (lon1 + 360) lat2 lon2 = haversineDistance lat1 lon1 lat2 lon2.
Proof.
  assert (Hfwd : lon2 + 360 - lon1 = lon2 - lon1 + 360) by ring.
  assert (Hback : lon2 - (lon1 + 360) + 360 = lon2 - lon1) by ring.
  assert (Hc : cos (degToRad (lon2 - (lon1 + 360))) = cos (degToRad (lon2 - lon1))).
  { rewrite <- Hback. rewrite degToRad_full_turn, cos_full_turn. reflexivity. }
  split.
  - unfold haversineDistance. rewrite Hfwd, haversineFunc_full_turn. reflexivity.
  - unfold haversineDistance, haversineFunc. rewrite Hc. reflexivity.
Qed.

Lemma atan2_on_axes (v : R) :
  0 < v ->
  JsNumber.atan2 0 v = 0 /\ JsNumber.atan2 v 0 = PI / 2 /\
  JsNumber.atan2 0 (- v) = PI /\ JsNumber.atan2 (- v) 0 = - (PI / 2).
Proof.
  intros Hv. unfold JsNumber.atan2. repeat split.
  - destruct (Rlt_dec 0 v) as [_ | H]; [| lra].
    unfold Rdiv. rewrite Rmult_0_l. apply atan_0.
  - destruct (Rlt_dec 0 0) as [H | _]; [lra |].
    destruct (Rlt_dec 0 v) as [_ | H]; [reflexivity | lra].
  - destruct (Rlt_dec 0 (- v)) as [H | _]; [lra |].
    destruct (Rlt_dec (- v) 0) as [_ | H]; [| lra].
    destruct (Rle_dec 0 0) as [_ | H]; [| lra].
    unfold Rdiv. rewrite Rmult_0_l, atan_0. ring.
  - destruct (Rlt_dec 0 0) as [H | _]; [lra |].
    destruct (Rlt_dec 0 (- v)) as [H | _]; [lra |].
    destruct (Rlt_dec (- v) 0) as [_ | H]; [reflexivity | lra].
Qed.

(** X7: the four cardinal directions.  A target on the observer's meridian
    has bearing 0 when it is to the north and 180 when it is to the south;
    on the equator a target to the east has bearing 90 and one to the west
    270. *)
Theorem bearingBetween_cardinal (a b : R) :
  0 < b - a < 180 ->
  (forall lon : R, bearingBetween a lon b lon = 0) /\
  (forall lon : R, bearingBetween b lon a lon = 180) /\
  bearingBetween 0 a 0 b = 90 /\
  bearingBetween 0 b 0 a = 270.
Proof.
  intros [Hlo Hhi]. pose proof PI_RGT_0 as Hpi.
  assert (Hsin : 0 < sin (degToRad (b - a))).
  { apply sin_gt_0; unfold degToRad; nra. }
  split; [| split; [| split]].
  - intros lon. unfold bearingBetween.
    replace (lon - lon) with 0 by ring.
    rewrite degToRad_0, sin_0, cos_0.
    replace (0 * cos (degToRad b)) with 0 by ring.
    replace (cos (degToRad a) * sin (degToRad b) -
             sin (degToRad a) * cos (degToRad b) * 1)
      with (sin (degToRad (b - a))).
    2:{ replace (degToRad (b - a)) with (degToRad b - degToRad a)
          by (unfold degToRad; field).
        rewrite sin_minus. ring. }
    destruct (atan2_on_axes _ Hsin) as (-> & _).
    replace (0 * 180 / PI + 360) with 360 by (field; lra).
    rewrite (rem_in_window 360 360 1); lra.
  - intros lon. apply bearingBetween_south. lra.
  - unfold bearingBetween.
    rewrite degToRad_0, sin_0, cos_0.
    replace (sin (degToRad (b - a)) * 1) with (sin (degToRad (b - a))) by ring.
    replace (1 * 0 - 0 * 1 * cos (degToRad (b - a))) with 0 by ring.
    destruct (atan2_on_axes _ Hsin) as (_ & -> & _).
    replace (PI / 2 * 180 / PI + 360) with 450 by (field; lra).
    rewrite (rem_in_window 450 360 1); lra.
  - unfold bearingBetween.
    rewrite degToRad_0, sin_0, cos_0.
    replace (a - b) with (- (b - a)) by ring.
    rewrite degToRad_opp, sin_neg, cos_neg.
    replace (- sin (degToRad (b - a)) * 1) with (- sin (degToRad (b - a))) by ring.
    replace (1 * 0 - 0 * 1 * cos (degToRad (b - a))) with 0 by ring.
    destruct (atan2_on_axes _ Hsin) as (_ & _ & _ & ->).
    replace (- (PI / 2) * 180 / PI + 360) with 270 by (field; lra).
    rewrite (rem_in_window 270 360 0); lra.
Qed.

Lemma bearingBetween_cardinal_witness :
  (forall lon : R, bearingBetween 51 lon 52 lon = 0) /\
  (forall lon : R, bearingBetween 52 lon 51 lon = 180) /\
  bearingBetween 0 51 0 52 = 90 /\
  bearingBetween 0 52 0 51 = 270.
Proof.
  apply (bearingBetween_cardinal 51 52). lra.
Defined.

(** ** More on the display *)

Lemma half_open_turn_unique (r1 r2 : R) (m : Z) :
  -180 <= r1 < 180 -> -180 <= r2 < 180 -> r1 - r2 = 360 * IZR m -> r1 = r2.
Proof.
  intros H1 H2 Hm.
  assert (Hlo : IZR (-1) < IZR m) by lra.
  assert (Hhi : IZR m < IZR 1) by lra.
  apply lt_IZR in Hlo, Hhi.
  assert (m = 0%Z) as -> by lia.
  lra.
Qed.

(** X8: the rotation depends only on the difference of bearing and heading
    up to whole turns, and it is 0 exactly when the heading is the bearing
    up to whole turns. *)
Theorem rotation_whole_turns :
  (forall (b1 b2 : R) (h1 h2 : option R) (k : Z),
     b1 - toNumber h1 = b2 - toNumber h2 + 360 * IZR k ->
     shortRelBearing b1 h1 = shortRelBearing b2 h2) /\
  (forall (b : R) (h : option R),
     shortRelBearing b h = 0 <-> exists k : Z, b - toNumber h = 360 * IZR k).
Proof.
  assert (Hturns : forall (b1 b2 : R) (h1 h2 : option R) (k : Z),
             b1 - toNumber h1 = b2 - toNumber h2 + 360 * IZR k ->
             shortRelBearing b1 h1 = shortRelBearing b2 h2).
  { intros b1 b2 h1 h2 k Hk.
    destruct (shortRelBearing_congruent b1 h1) as [k1 E1].
    destruct (shortRelBearing_congruent b2 h2) as [k2 E2].
    apply (half_open_turn_unique _ _ (k + k1 - k2));
      [apply shortRelBearing_range | apply shortRelBearing_range |].
    rewrite E1, E2, minus_IZR, plus_IZR. lra. }
  split; [exact Hturns |].
  intros b h. split.
  - intros H0. destruct (shortRelBearing_congruent b h) as [k E].
    exists (- k)%Z. rewrite opp_IZR. lra.
  - intros [k Hk].
    assert (Hz : shortRelBearing 0 None = 0).
    { destruct (shortRelBearing_congruent 0 None) as [k0 E0].
      apply (half_open_turn_unique _ _ k0);
        [apply shortRelBearing_range | lra |].
      rewrite E0. simpl. lra. }
    rewrite <- Hz. apply (Hturns b 0 h None k). simpl. lra.
Qed.

Lemma rotation_whole_turns_witness :
  shortRelBearing 10 (Some 370) = shortRelBearing 0 None /\
  shortRelBearing 725 (Some 5) = 0.
Proof.
  split.
  - apply (proj1 rotation_whole_turns 10 0 (Some 370) None (-1)%Z). simpl. lra.
  - apply (proj2 rotation_whole_turns 725 (Some 5)). exists 2%Z. simpl. lra.
Defined.

Lemma application_eq (a b : Application) :
  sameFields a b -> dom a = dom b -> a = b.
Proof.
  destruct a, b. intros (H1 & H2 & H3 & H4 & H5) H6. simpl in *.
  congruence.
Qed.

Lemma sameFields_ready (a b : Application) : sameFields a b -> ready a = ready b.
Proof.
  intros (H1 & _ & H3 & _). unfold ready. rewrite H1, H3. reflexivity.
Qed.

Lemma updateBearingUI_dom (a : Application) (loc : Coordinates)
    (pubs : list Pub.t) (closestPub : Pub.t) :
  ready a = Some (loc, pubs) ->
  selectedPub loc pubs (selectedPubId a) = Some closestPub ->
  dom (updateBearingUI a) =
  {| statusPane := statusPane (dom a);
     compassRotation :=
       Some (shortRelBearing
               (bearingBetween (latitude loc) (longitude loc)
                               (Pub.latitude closestPub) (Pub.longitude closestPub))
               (currentHeading a));
     distanceDiv := distanceDiv (dom a);
     nameDiv := nameDiv (dom a);
     pubListElem := pubListElem (dom a) |}.
Proof.
  intros Hr Hs. unfold updateBearingUI. rewrite Hr, Hs. reflexivity.
Qed.

Lemma updateUI_dom (a : Application) (loc : Coordinates)
    (pubs : list Pub.t) (closestPub : Pub.t) :
  ready a = Some (loc, pubs) ->
  selectedPub loc pubs (selectedPubId a) = Some closestPub ->
  dom (updateUI a) =
  {| statusPane := None;
     compassRotation :=
       Some (shortRelBearing
               (bearingBetween (latitude loc) (longitude loc)
                               (Pub.latitude closestPub) (Pub.longitude closestPub))
               (currentHeading a));
     distanceDiv := distanceStr (distanceFrom loc closestPub);
     nameDiv := Some (displayName closestPub);
     pubListElem := Some (map (createLinkElem loc (selectedPubId a))
                              (toSorted (distanceSort loc) pubs)) |}.
Proof.
  intros Hr Hs. unfold updateUI. rewrite Hr. cbn zeta.
  change (selectedPubId (clearStatus a)) with (selectedPubId a). rewrite Hs.
  match goal with |- context [updateBearingUI ?x] =>
    rewrite (updateBearingUI_dom x loc pubs closestPub)
  end; [reflexivity | | exact Hs].
  apply ready_intro.
  - apply (ready_nonempty a loc pubs Hr).
  - apply (ready_nonempty a loc pubs Hr).
  - apply (ready_nonempty a loc pubs Hr).
Qed.

(** X9: refreshing the display twice is the same as refreshing it once, and
    refreshing the bearing after a full refresh changes nothing. *)
Theorem updateUI_idempotent (a : Application) :
  updateUI (updateUI a) = updateUI a /\
  updateBearingUI (updateUI a) = updateUI a /\
  updateBearingUI (updateBearingUI a) = updateBearingUI a.
Proof.
  pose proof (updateUI_sameFields a) as Hsame.
  pose proof (updateBearingUI_sameFields a) as Hsame'.
  destruct (ready a) as [[loc pubs] |] eqn:Hr.
  2:{ rewrite !(updateUI_not_ready a Hr).
      assert (Hb : updateBearingUI a = a) by (unfold updateBearingUI; rewrite Hr; reflexivity).
      rewrite !Hb. auto. }
  destruct (ready_nonempty a loc pubs Hr) as (_ & _ & Hne).
  destruct (selectedPub_nonempty loc pubs (selectedPubId a) Hne) as [p Hp].
  assert (Hr1 : ready (updateUI a) = Some (loc, pubs))
    by (rewrite (sameFields_ready _ _ Hsame); exact Hr).
  assert (Hr2 : ready (updateBearingUI a) = Some (loc, pubs))
    by (rewrite (sameFields_ready _ _ Hsame'); exact Hr).
  destruct Hsame as (S1 & S2 & S3 & S4 & S5).
  destruct Hsame' as (B1 & B2 & B3 & B4 & B5).
  assert (Hp1 : selectedPub loc pubs (selectedPubId (updateUI a)) = Some p)
    by (rewrite S4; exact Hp).
  assert (Hp2 : selectedPub loc pubs (selectedPubId (updateBearingUI a)) = Some p)
    by (rewrite B4; exact Hp).
  split; [| split].
  - apply application_eq; [apply updateUI_sameFields |].
    rewrite (updateUI_dom _ loc pubs p Hr1 Hp1), (updateUI_dom a loc pubs p Hr Hp).
    rewrite S2, S4. reflexivity.
  - apply application_eq; [apply updateBearingUI_sameFields |].
    rewrite (updateBearingUI_dom _ loc pubs p Hr1 Hp1).
    rewrite (updateUI_dom a loc pubs p Hr Hp), S2. reflexivity.
  - apply application_eq; [apply updateBearingUI_sameFields |].
    rewrite (updateBearingUI_dom _ loc pubs p Hr2 Hp2).
    rewrite (updateBearingUI_dom a loc pubs p Hr Hp), B2. reflexivity.
Qed.

(** X10: a heading event stores 360 less [alpha] and may change the compass
    rotation; it changes nothing else of the state or of the page, and it
    never sends a request. *)
Theorem setHeading_frame (alpha : R) (s : System) :
  exists s' : System,
    handle (Orientation alpha) s = Some s' /\
    currentHeading (app s') = Some (360 - alpha) /\
    currentLocation (app s') = currentLocation (app s) /\
    nearbyPubs (app s') = nearbyPubs (app s) /\
    selectedPubId (app s') = selectedPubId (app s) /\
    _pendingFetch (app s') = _pendingFetch (app s) /\
    inflight s' = inflight s /\
    statusPane (dom (app s')) = statusPane (dom (app s)) /\
    distanceDiv (dom (app s')) = distanceDiv (dom (app s)) /\
    nameDiv (dom (app s')) = nameDiv (dom (app s)) /\
    pubListElem (dom (app s')) = pubListElem (dom (app s)).
Proof.
  eexists. split; [reflexivity |]. cbn [app inflight]. unfold setHeading.
  set (a := withHeading (Some (360 - alpha)) (app s)).
  destruct (updateBearingUI_sameFields a) as (H1 & H2 & H3 & H4 & H5).
  destruct (updateBearingUI_keeps_list a) as (Hl & Hn & Hd).
  pose proof (updateBearingUI_status a) as Hst.
  rewrite H1, H2, H3, H4, H5, Hl, Hn, Hd, Hst.
  repeat split.
Qed.

(** ** The reply of the search service *)

Lemma toPub_some (r : Overpass.Element) (p : Pub.t) :
  toPub r = Some p -> pubOfElement r p.
Proof.
  unfold toPub, pubOfElement.
  destruct (Overpass.tags r) as [name |]; [| discriminate].
  destruct (Overpass.geometry r) as [lat lon | lat lon]; intros [= <-];
    simpl; auto.
Qed.

Lemma toPub_throws (r : Overpass.Element) :
  toPub r = None <-> Overpass.tags r = None.
Proof.
  unfold toPub. destruct (Overpass.tags r) as [name |].
  - destruct (Overpass.geometry r); split; discriminate.
  - split; reflexivity.
Qed.

(** X11: the records of a reply are taken all or none.  One record without
    [tags] makes the whole conversion fail, whatever the others are; and
    when the conversion succeeds there is one pub per record, in the order
    of the reply, with the point of the record (its own or its center), its
    name and its id. *)
Theorem mapToPub_all_or_nothing (elements : list Overpass.Element) :
  ((exists r, In r elements /\ Overpass.tags r = None) ->
   mapToPub elements = None) /\
  (forall pubs, mapToPub elements = Some pubs ->
                Forall2 pubOfElement elements pubs).
Proof.
  induction elements as [| r rest [IHfail IHall]]; cbn [mapToPub].
  - split.
    + intros (r & [] & _).
    + intros pubs [= <-]. constructor.
  - destruct (toPub r) as [p |] eqn:Hp.
    + destruct (mapToPub rest) as [ps |] eqn:Hps.
      * split.
        -- intros (x & [<- | Hin] & Hx).
           ++ apply toPub_throws in Hx. congruence.
           ++ exfalso. assert (Some ps = None) by (apply IHfail; eauto).
              discriminate.
        -- intros pubs [= <-]. constructor; [apply toPub_some; exact Hp |].
           apply IHall. reflexivity.
      * split; [reflexivity | discriminate].
    + split; [reflexivity | discriminate].
Qed.

(** ** What an event may change *)

Lemma setCoords_other_fields (coords : Coordinates) (s : System) :
  currentHeading (app (setCoords coords s)) = currentHeading (app s) /\
  nearbyPubs (app (setCoords coords s)) = nearbyPubs (app s) /\
  selectedPubId (app (setCoords coords s)) = selectedPubId (app s).
Proof.
  unfold setCoords.
  destruct (updateUI_sameFields (withLocation (Some coords) (app s)))
    as (_ & H2 & H3 & H4 & _).
  destruct (movedEnough (currentLocation (app s)) coords);
    [destruct (negb _) |]; simpl; auto.
Qed.

(** X12: each field of the state has one event that may change it: the
    location a position event, the heading an orientation event, the
    selection the choice of a radio button, the candidate set the arrival of
    a body.  In particular no fetch, failed or not, clears the selection. *)
Theorem fields_change_by_their_event (e : Event) (s s' : System) :
  handle e s = Some s' ->
  ((forall coords, e <> Position coords) ->
   currentLocation (app s') = currentLocation (app s)) /\
  ((forall alpha, e <> Orientation alpha) ->
   currentHeading (app s') = currentHeading (app s)) /\
  ((forall pub, e <> RadioChange pub) ->
   selectedPubId (app s') = selectedPubId (app s)) /\
  ((forall i body, e <> JsonSettled i body) ->
   nearbyPubs (app s') = nearbyPubs (app s)).
Proof.
  intros Hh. destruct e as [coords | alpha | pub | i r | i body];
    cbn [handle] in Hh.
  - injection Hh as <-.
    destruct (setCoords_other_fields coords s) as (H2 & H3 & H4).
    repeat split; try (intros _; assumption).
    intros H. exfalso. exact (H coords eq_refl).
  - injection Hh as <-. cbn [app]. unfold setHeading.
    destruct (updateBearingUI_sameFields (withHeading (Some (360 - alpha)) (app s)))
      as (H1 & _ & H3 & H4 & _).
    repeat split; try (intros _; assumption).
    intros H. exfalso. exact (H alpha eq_refl).
  - injection Hh as <-. cbn [app].
    destruct (updateUI_sameFields (withSelected (Pub.id pub) (app s)))
      as (H1 & H2 & H3 & _ & _).
    repeat split; try (intros _; assumption).
    intros H. exfalso. exact (H pub eq_refl).
  - destruct (nth_error (inflight s) i) as [[origin |] |]; try discriminate.
    pose proof (afterFetch_sameFields r (app s)) as (H1 & H2 & H3 & H4 & _).
    destruct (afterFetch r (app s)) as [a [|]]; injection Hh as <-;
      cbn [app fst] in *; repeat split; intros _; assumption.
  - destruct (nth_error (inflight s) i) as [[origin |] |]; try discriminate.
    injection Hh as <-. cbn [app].
    destruct (afterJson_fields body (app s)) as (H1 & H2 & H4 & _).
    repeat split; try (intros _; assumption).
    intros H. exfalso. exact (H i body eq_refl).
Qed.

Lemma fields_change_by_their_event_witness :
  ((forall coords, FetchSettled 0 None <> Position coords) ->
   currentLocation (app Scenario.idle) = currentLocation (app Scenario.firstFix)) /\
  ((forall alpha, FetchSettled 0 None <> Orientation alpha) ->
   currentHeading (app Scenario.idle) = currentHeading (app Scenario.firstFix)) /\
  ((forall pub, FetchSettled 0 None <> RadioChange pub) ->
   selectedPubId (app Scenario.idle) = selectedPubId (app Scenario.firstFix)) /\
  ((forall i body, FetchSettled 0 None <> JsonSettled i body) ->
   nearbyPubs (app Scenario.idle) = nearbyPubs (app Scenario.firstFix)).
Proof.
  apply (fields_change_by_their_event (FetchSettled 0 None)
           Scenario.firstFix Scenario.idle).
  reflexivity.
Defined.

(** ** The target after a refresh, a move or a choice *)

Lemma checked_item (loc : Coordinates) (sel : JsId) (pubs : list Pub.t) (p : Pub.t) :
  In p pubs -> Pub.id p = sel ->
  exists it, In it (map (createLinkElem loc sel) (toSorted (distanceSort loc) pubs)) /\
             item_pub it = p /\ item_checked it = true.
Proof.
  intros Hin Hid. exists (createLinkElem loc sel p). split; [| split].
  - apply in_map. apply (toSorted_In (distanceFrom loc)). exact Hin.
  - reflexivity.
  - simpl. apply strictEq_eq. congruence.
Qed.

(** X13: a selection survives a refresh.  When the new candidate set has a
    member with the selected id (a truthy one), that member is the target
    shown after the reply, whatever the distances, and its radio button is
    checked. *)
Theorem selection_survives_refresh (a : Application) (loc : Coordinates)
    (elements : list Overpass.Element) (results : list Pub.t) :
  currentLocation a = Some loc ->
  truthy (selectedPubId a) = true ->
  mapToPub elements = Some results ->
  (exists p, In p results /\ Pub.id p = selectedPubId a) ->
  exists p items,
    In p results /\ Pub.id p = selectedPubId a /\
    selectedPubId (afterJson (Overpass.Json (Some elements)) a) = selectedPubId a /\
    nameDiv (dom (afterJson (Overpass.Json (Some elements)) a))
      = Some (displayName p) /\
    distanceDiv (dom (afterJson (Overpass.Json (Some elements)) a))
      = distanceStr (distanceFrom loc p) /\
    pubListElem (dom (afterJson (Overpass.Json (Some elements)) a)) = Some items /\
    exists it, In it items /\ item_pub it = p /\ item_checked it = true.
Proof.
  intros Hloc Ht Hmap Hex.
  destruct (selectedPub_present loc results (selectedPubId a) Ht Hex)
    as (p & Hp & Hin & Hid).
  assert (Hne : results <> []) by (intros ->; destruct Hin).
  assert (Hr : ready (withPubs (Some results) a) = Some (loc, results))
    by (apply ready_intro; [exact Hloc | reflexivity | exact Hne]).
  assert (E : afterJson (Overpass.Json (Some elements)) a
              = updateUI (withPubs (Some results) a))
    by (unfold afterJson; rewrite Hmap; reflexivity).
  rewrite E.
  pose proof (updateUI_dom (withPubs (Some results) a) loc results p Hr Hp) as Hdom.
  destruct (updateUI_sameFields (withPubs (Some results) a)) as (_ & _ & _ & H4 & _).
  exists p. eexists. rewrite Hdom. cbn [nameDiv distanceDiv pubListElem].
  repeat split; try assumption.
  apply checked_item; assumption.
Qed.

Lemma selection_survives_refresh_witness :
  exists p items,
    In p Example.pubs /\ Pub.id p = IdNum 7 /\
    selectedPubId (afterJson (Overpass.Json (Some Sample.elements)) Sample.nearSelected)
      = IdNum 7 /\
    nameDiv (dom (afterJson (Overpass.Json (Some Sample.elements)) Sample.nearSelected))
      = Some (displayName p) /\
    distanceDiv (dom (afterJson (Overpass.Json (Some Sample.elements)) Sample.nearSelected))
      = distanceStr (distanceFrom Example.origin p) /\
    pubListElem (dom (afterJson (Overpass.Json (Some Sample.elements)) Sample.nearSelected))
      = Some items /\
    exists it, In it items /\ item_pub it = p /\ item_checked it = true.
Proof.
  apply (selection_survives_refresh Sample.nearSelected Example.origin
           Sample.elements Example.pubs).
  - reflexivity.
  - reflexivity.
  - reflexivity.
  - exists Example.nearPub. split; [right; left; reflexivity | reflexivity].
Defined.

Lemma reachable_task_has_location (s : System) (i : nat) (t : FetchTask) :
  reachable s -> nth_error (inflight s) i = Some t ->
  exists loc, currentLocation (app s) = Some loc.
Proof.
  intros Hr Hnth. destruct (currentLocation (app s)) as [loc |] eqn:Hl; [eauto |].
  pose proof (reachable_no_fix_no_fetch s Hr Hl) as Hp.
  destruct (reachable_singleFlight s Hr) as [_ Hflag].
  destruct (inflight s) as [| x l]; [destruct i; discriminate |].
  assert (_pendingFetch (app s) = true) by (apply Hflag; discriminate).
  congruence.
Qed.

(** X14: in every reachable state, the arrival of a body with at least one
    record, all with tags, replaces the candidate set, clears the status and
    the flag, and shows the target that [selectedPub] resolves in the new
    set from the current location. *)
Theorem reply_with_records_shows_target (s s' : System) (i : nat)
    (elements : list Overpass.Element) (results : list Pub.t) :
  reachable s ->
  handle (JsonSettled i (Overpass.Json (Some elements))) s = Some s' ->
  mapToPub elements = Some results ->
  results <> [] ->
  nearbyPubs (app s') = Some results /\
  statusPane (dom (app s')) = None /\
  _pendingFetch (app s') = false /\
  inflight s' = [] /\
  exists loc p,
    currentLocation (app s') = Some loc /\
    selectedPub loc results (selectedPubId (app s)) = Some p /\
    nameDiv (dom (app s')) = Some (displayName p) /\
    distanceDiv (dom (app s')) = distanceStr (distanceFrom loc p).
Proof.
  intros Hreach Hh Hmap Hne.
  destruct (handle_endsFetch (JsonSettled i (Overpass.Json (Some elements))) s s'
              (reachable_singleFlight s Hreach) eq_refl Hh)
    as [Hp Hi].
  cbn [handle] in Hh.
  destruct (nth_error (inflight s) i) as [[origin |] |] eqn:Hnth; try discriminate.
  destruct (reachable_task_has_location s i _ Hreach Hnth) as [loc Hloc].
  injection Hh as <-. cbn [app inflight] in *.
  rewrite Hmap in *.
  assert (Hr : ready (withPubs (Some results) (app s)) = Some (loc, results))
    by (apply ready_intro; [exact Hloc | reflexivity | exact Hne]).
  destruct (selectedPub_nonempty loc results (selectedPubId (app s)) Hne) as [p Hsel].
  pose proof (updateUI_dom (withPubs (Some results) (app s)) loc results p Hr Hsel)
    as Hdom.
  destruct (updateUI_sameFields (withPubs (Some results) (app s)))
    as (H1 & _ & H3 & _ & _).
  unfold onFinally. cbn [nearbyPubs dom currentLocation withPending].
  rewrite Hdom, H3, H1. cbn [statusPane nameDiv distanceDiv].
  split; [reflexivity |]. split; [reflexivity |]. split; [reflexivity |].
  split; [exact Hi |].
  exists loc, p. repeat split; assumption.
Qed.

Lemma reply_with_records_shows_target_witness :
  nearbyPubs (app {| app := onFinally (afterJson (Overpass.Json (Some Sample.elements))
                                                 (app Scenario.awaitingBody));
                     inflight := [] |}) = Some Example.pubs /\
  statusPane (dom (onFinally (afterJson (Overpass.Json (Some Sample.elements))
                                        (app Scenario.awaitingBody)))) = None.
Proof.
  destruct (reply_with_records_shows_target Scenario.awaitingBody
              {| app := onFinally (afterJson (Overpass.Json (Some Sample.elements))
                                             (app Scenario.awaitingBody));
                 inflight := [] |}
              0 Sample.elements Example.pubs)
    as (H1 & H2 & _).
  - apply awaitingBody_reachable.
  - reflexivity.
  - reflexivity.
  - discriminate.
  - split; [exact H1 | exact H2].
Defined.

Lemma setCoords_dom (coords : Coordinates) (s : System) :
  compassRotation (dom (app (setCoords coords s)))
    = compassRotation (dom (updateUI (withLocation (Some coords) (app s)))) /\
  distanceDiv (dom (app (setCoords coords s)))
    = distanceDiv (dom (updateUI (withLocation (Some coords) (app s)))) /\
  nameDiv (dom (app (setCoords coords s)))
    = nameDiv (dom (updateUI (withLocation (Some coords) (app s)))) /\
  pubListElem (dom (app (setCoords coords s)))
    = pubListElem (dom (updateUI (withLocation (Some coords) (app s)))).
Proof.
  unfold setCoords.
  destruct (movedEnough (currentLocation (app s)) coords);
    [destruct (negb _) |]; simpl; auto.
Qed.

(** X15: a position event is stored and shown at once, whether or not it
    leads to a fetch: with a non-empty candidate set, the name, the distance
    and the rotation on the page are those of the target resolved from the
    new coordinate. *)
Theorem setCoords_refreshes_display (coords : Coordinates) (s : System)
    (pubs : list Pub.t) :
  nearbyPubs (app s) = Some pubs ->
  pubs <> [] ->
  currentLocation (app (setCoords coords s)) = Some coords /\
  exists p,
    selectedPub coords pubs (selectedPubId (app s)) = Some p /\
    nameDiv (dom (app (setCoords coords s))) = Some (displayName p) /\
    distanceDiv (dom (app (setCoords coords s)))
      = distanceStr (distanceFrom coords p) /\
    compassRotation (dom (app (setCoords coords s)))
      = Some (shortRelBearing
                (bearingBetween (latitude coords) (longitude coords)
                                (Pub.latitude p) (Pub.longitude p))
                (currentHeading (app s))).
Proof.
  intros Hpubs Hne. split; [apply setCoords_location |].
  assert (Hr : ready (withLocation (Some coords) (app s)) = Some (coords, pubs))
    by (apply ready_intro; [reflexivity | exact Hpubs | exact Hne]).
  destruct (selectedPub_nonempty coords pubs (selectedPubId (app s)) Hne) as [p Hp].
  pose proof (updateUI_dom (withLocation (Some coords) (app s)) coords pubs p Hr Hp)
    as Hdom.
  destruct (setCoords_dom coords s) as (Hc & Hd & Hn & _).
  exists p. rewrite Hc, Hd, Hn, Hdom. repeat split. exact Hp.
Qed.

Lemma setCoords_refreshes_display_witness :
  currentLocation (app (setCoords Example.north111 Sample.atRest))
    = Some Example.north111 /\
  exists p,
    selectedPub Example.north111 Example.pubs IdNull = Some p /\
    nameDiv (dom (app (setCoords Example.north111 Sample.atRest)))
      = Some (displayName p) /\
    distanceDiv (dom (app (setCoords Example.north111 Sample.atRest)))
      = distanceStr (distanceFrom Example.north111 p) /\
    compassRotation (dom (app (setCoords Example.north111 Sample.atRest)))
      = Some (shortRelBearing
                (bearingBetween (latitude Example.north111) (longitude Example.north111)
                                (Pub.latitude p) (Pub.longitude p))
                None).
Proof.
  apply (setCoords_refreshes_display Example.north111 Sample.atRest Example.pubs).
  - reflexivity.
  - discriminate.
Defined.

Lemma createLinkElem_items (loc : Coordinates) (sel : JsId) (l : list Pub.t)
    (it : ListItem) :
  In it (map (createLinkElem loc sel) l) ->
  In (item_pub it) l /\
  item_checked it = strictEq sel (Pub.id (item_pub it)) /\
  item_label it = displayName (item_pub it) /\
  item_distance it = distanceStr (distanceFrom loc (item_pub it)).
Proof.
  intros Hin. apply in_map_iff in Hin. destruct Hin as (p & <- & Hp).
  simpl. auto.
Qed.

(** X16: in the list on the page a radio button is checked exactly when its
    pub carries the stored selection.  So a member that carries a selection
    that is not truthy has its button checked, while the target shown is the
    nearest pub. *)
Theorem radio_checked_iff_selected (a : Application) (loc : Coordinates)
    (pubs : list Pub.t) :
  ready a = Some (loc, pubs) ->
  exists items,
    pubListElem (dom (updateUI a)) = Some items /\
    (forall it, In it items ->
       (item_checked it = true <-> Pub.id (item_pub it) = selectedPubId a)) /\
    (truthy (selectedPubId a) = false ->
     forall p, In p pubs -> Pub.id p = selectedPubId a ->
       (exists it, In it items /\ item_pub it = p /\ item_checked it = true) /\
       exists q, nearestFirst loc pubs q /\
                 nameDiv (dom (updateUI a)) = Some (displayName q)).
Proof.
  intros Hr. destruct (ready_nonempty a loc pubs Hr) as (_ & _ & Hne).
  destruct (selectedPub_nonempty loc pubs (selectedPubId a) Hne) as [t Ht].
  pose proof (updateUI_dom a loc pubs t Hr Ht) as Hdom.
  eexists. rewrite Hdom. cbn [pubListElem nameDiv].
  split; [reflexivity |]. split.
  - intros it Hin. destruct (createLinkElem_items _ _ _ _ Hin) as (_ & -> & _).
    rewrite strictEq_eq. split; congruence.
  - intros Hf p Hin Hid. split; [apply checked_item; assumption |].
    rewrite selectedPub_falsy in Ht by assumption.
    destruct (sorted_head_nearest loc pubs Hne) as (q & Hq & Hnear).
    exists q. split; [exact Hnear | congruence].
Qed.

Lemma radio_checked_iff_selected_witness :
  exists items,
    pubListElem (dom (updateUI Sample.zeroSelected)) = Some items /\
    (forall it, In it items ->
       (item_checked it = true <-> Pub.id (item_pub it) = IdNum 0)) /\
    (truthy (IdNum 0) = false ->
     forall p, In p Example.pubs -> Pub.id p = IdNum 0 ->
       (exists it, In it items /\ item_pub it = p /\ item_checked it = true) /\
       exists q, nearestFirst Example.origin Example.pubs q /\
                 nameDiv (dom (updateUI Sample.zeroSelected)) = Some (displayName q)).
Proof.
  exact (radio_checked_iff_selected Sample.zeroSelected Example.origin Example.pubs
           eq_refl).
Defined.



(** ** Ties in the list *)

Lemma insertSorted_atDistance {A : Type} (key : A -> R) (d : R) (x : A) (l : list A) :
  filter (fun p => if Req_dec_T (key p) d then true else false)
         (insertSorted (compareByKey key) x l)
  = filter (fun p => if Req_dec_T (key p) d then true else false) (x :: l).
Proof.
  induction l as [| y l IH]; [reflexivity |].
  cbn [insertSorted]. unfold compareByKey at 1.
  destruct (Rle_dec (key x - key y) 0) as [Hle | Hgt]; [reflexivity |].
  cbn [filter] in *. rewrite IH.
  destruct (Req_dec_T (key x) d) as [Hx | Hx];
    destruct (Req_dec_T (key y) d) as [Hy | Hy]; try reflexivity.
  exfalso. lra.
Qed.

Lemma toSorted_atDistance {A : Type} (key : A -> R) (d : R) (l : list A) :
  filter (fun p => if Req_dec_T (key p) d then true else false)
         (toSorted (compareByKey key) l)
  = filter (fun p => if Req_dec_T (key p) d then true else false) l.
Proof.
  induction l as [| x l IH]; [reflexivity |].
  cbn [toSorted]. rewrite insertSorted_atDistance.
  cbn [filter]. rewrite IH. reflexivity.
Qed.

(** X18: the sort is stable on the page: the pubs that are equally far away
    appear in the list in the order in which the reply gave them. *)
Theorem tied_pubs_keep_order (a : Application) (loc : Coordinates)
    (pubs : list Pub.t) (d : R) :
  ready a = Some (loc, pubs) ->
  exists items,
    pubListElem (dom (updateUI a)) = Some items /\
    atDistance loc d (map item_pub items) = atDistance loc d pubs.
Proof.
  intros Hr. destruct (ready_nonempty a loc pubs Hr) as (_ & _ & Hne).
  destruct (selectedPub_nonempty loc pubs (selectedPubId a) Hne) as [t Ht].
  pose proof (updateUI_dom a loc pubs t Hr Ht) as Hdom.
  eexists. rewrite Hdom. cbn [pubListElem]. split; [reflexivity |].
  rewrite createLinkElem_pub. unfold atDistance.
  apply (toSorted_atDistance (distanceFrom loc)).
Qed.

Lemma crown_and_anchor_tie :
  atDistance Example.origin (distanceFrom Example.origin Sample.crown) Sample.threePubs
  = [Sample.crown; Sample.anchor].
Proof.
  pose proof far_pub_is_farther as [Hnear Hfar].
  change (distanceFrom Example.origin Example.farPub)
    with (distanceFrom Example.origin Sample.crown) in Hfar.
  unfold atDistance, Sample.threePubs. cbn [filter].
  change (distanceFrom Example.origin Sample.anchor)
    with (distanceFrom Example.origin Sample.crown).
  destruct (Req_dec_T (distanceFrom Example.origin Sample.crown)
                      (distanceFrom Example.origin Sample.crown)) as [_ | Hn];
    [| exfalso; apply Hn; reflexivity].
  destruct (Req_dec_T (distanceFrom Example.origin Example.nearPub)
                      (distanceFrom Example.origin Sample.crown)) as [He | _];
    [exfalso; lra | reflexivity].
Qed.

Lemma tied_pubs_keep_order_witness :
  exists items,
    pubListElem (dom (updateUI Sample.inTown)) = Some items /\
    atDistance Example.origin (distanceFrom Example.origin Sample.crown)
               (map item_pub items)
      = [Sample.crown; Sample.anchor].
Proof.
  destruct (tied_pubs_keep_order Sample.inTown Example.origin Sample.threePubs
              (distanceFrom Example.origin Sample.crown) eq_refl)
    as (items & Hlist & Htie).
  exists items. split; [exact Hlist |].
  rewrite Htie. apply crown_and_anchor_tie.
Defined.

(** ** Digits *)

Lemma digitChar_value (d : Z) :
  (0 <= d <= 9)%Z ->
  digitValue (JsFormat.digitChar d) = d /\ isDigit (JsFormat.digitChar d) = true.
Proof.
  intros Hd. unfold digitValue, isDigit, JsFormat.digitChar.
  rewrite nat_ascii_embedding by lia.
  split; [lia |].
  apply andb_true_intro. split; apply Nat.leb_le; lia.
Qed.

Lemma decimalValueFrom_append (s t : string) (acc : Z) :
  decimalValueFrom acc (s ++ t) = decimalValueFrom (decimalValueFrom acc s) t.
Proof.
  revert acc. induction s as [| c s IH]; intros acc; cbn [append decimalValueFrom];
    [reflexivity |].
  apply IH.
Qed.

Lemma allDigits_append (s t : string) :
  allDigits (s ++ t) = allDigits s && allDigits t.
Proof.
  induction s as [| c s IH]; cbn [append allDigits]; [reflexivity |].
  rewrite IH. apply andb_assoc.
Qed.

Lemma decimal_single (n : Z) :
  (0 <= n < 10)%Z -> JsFormat.decimal n = String (JsFormat.digitChar n) "".
Proof.
  intros Hn. rewrite (decimal_fuel 0 n) by (change (10 ^ Z.of_nat 1)%Z with 10%Z; lia).
  cbn [JsFormat.decimalFuel]. destruct (n <? 10)%Z eqn:E; [reflexivity |].
  apply Z.ltb_ge in E. lia.
Qed.

Lemma digitValue_zero : digitValue "0"%char = 0%Z.
Proof. reflexivity. Qed.

Lemma decimal_properties (k : nat) :
  forall n : Z,
    (0 <= n)%Z -> (Z.to_nat n <= k)%nat ->
    decimalValue (JsFormat.decimal n) = n /\
    allDigits (JsFormat.decimal n) = true /\
    ((0 < n)%Z ->
     exists c rest, JsFormat.decimal n = String c rest /\ c <> "0"%char).
Proof.
  induction k as [| k IH]; intros n Hn Hk.
  - assert (n = 0%Z) as -> by lia.
    repeat split; try reflexivity. lia.
  - destruct (Z_lt_dec n 10) as [Hsmall | Hbig].
    + rewrite decimal_single by lia.
      destruct (digitChar_value n ltac:(lia)) as [Hv Hd].
      unfold decimalValue. cbn [decimalValueFrom allDigits].
      rewrite Hv, Hd. split; [lia |]. split; [reflexivity |].
      intros Hpos. eexists. eexists. split; [reflexivity |].
      intros Hc. apply (f_equal digitValue) in Hc.
      rewrite Hv, digitValue_zero in Hc. lia.
    + rewrite decimal_step by lia.
      assert (Hq : (0 < n / 10 < n)%Z).
      { split; [apply Z.div_str_pos; lia | apply Z.div_lt; lia]. }
      destruct (IH (n / 10)%Z ltac:(lia) ltac:(lia)) as (Hv & Hd & Hlead).
      pose proof (Z.mod_pos_bound n 10 ltac:(lia)) as Hmod.
      destruct (digitChar_value (n mod 10) ltac:(lia)) as [Hv0 Hd0].
      unfold decimalValue in *.
      rewrite decimalValueFrom_append, Hv, allDigits_append, Hd.
      cbn [decimalValueFrom allDigits andb]. rewrite Hv0, Hd0.
      split; [| split].
      * pose proof (Z.div_mod n 10 ltac:(lia)). lia.
      * reflexivity.
      * intros _. destruct (Hlead ltac:(lia)) as (c & rest & E & Hc).
        rewrite E. cbn [append]. eexists. eexists.
        split; [reflexivity | exact Hc].
Qed.

(** X19: a whole number of metres from 0 to 1000 is shown by its decimal
    digits followed by "m": the digits read back to the number, and there is
    no leading zero. *)
Theorem distanceStr_whole_metres (n : Z) :
  (0 <= n <= 1000)%Z ->
  distanceStr (IZR n) = Some (JsFormat.decimal n ++ "m")%string /\
  decimalValue (JsFormat.decimal n) = n /\
  allDigits (JsFormat.decimal n) = true /\
  ((0 < n)%Z ->
   exists c rest, JsFormat.decimal n = String c rest /\ c <> "0"%char).
Proof.
  intros [Hlo Hhi]. split.
  - assert (H0 : 0 <= IZR n) by (apply IZR_le in Hlo; exact Hlo).
    assert (H1 : IZR n <= 1000) by (apply IZR_le in Hhi; exact Hhi).
    unfold distanceStr. destruct (Rlt_dec 1000 (IZR n)) as [H | _]; [lra |].
    rewrite (toFixed_rounds (IZR n) 0 n); [reflexivity | simpl; lra | simpl; lra].
  - apply (decimal_properties (Z.to_nat n)); lia.
Qed.

Lemma distanceStr_whole_metres_witness :
  distanceStr (IZR 250) = Some (JsFormat.decimal 250 ++ "m")%string /\
  decimalValue (JsFormat.decimal 250) = 250%Z /\
  allDigits (JsFormat.decimal 250) = true /\
  ((0 < 250)%Z ->
   exists c rest, JsFormat.decimal 250 = String c rest /\ c <> "0"%char).
Proof.
  apply (distanceStr_whole_metres 250). lia.
Defined.

(** X20: around the change of unit.  From 999.5 m up to 1000 m the string
    is "1000m"; above 1000 m and below 1005 m it is "1.00km". *)
Theorem distanceStr_unit_switch (d : R) :
  (9995 / 10 <= d <= 1000 -> distanceStr d = Some "1000m"%string) /\
  (1000 < d < 1005 -> distanceStr d = Some "1.00km"%string).
Proof.
  split; intros [Hlo Hhi]; unfold distanceStr.
  - destruct (Rlt_dec 1000 d) as [H | _]; [lra |].
    rewrite (toFixed_rounds d 0 1000); [reflexivity | simpl; lra | simpl; lra].
  - destruct (Rlt_dec 1000 d) as [_ | H]; [| lra].
    rewrite (toFixed_rounds (d / 1000) 2 100); [reflexivity | simpl; lra | simpl; lra].
Qed.

(** ** Start *)

Lemma lookups_all_found (page : Page) (elemIds : list (string * bool))
    (a : Application) :
  (forall elemId flag, In (elemId, flag) elemIds -> hasElement page elemId = true) ->
  lookups page elemIds a = (a, None).
Proof.
  induction elemIds as [| [x flag] l IH]; intros Hall; cbn [lookups];
    [reflexivity |].
  unfold getElemOrFail. rewrite (Hall x flag (or_introl eq_refl)).
  apply IH. intros e f He. apply (Hall e f). right. exact He.
Qed.

Lemma lookups_one_missing (page : Page) (elemIds : list (string * bool))
    (a : Application) :
  resolves page "elemid" = false ->
  (exists elemId flag, In (elemId, flag) elemIds /\ hasElement page elemId = false) ->
  lookups page elemIds a = (a, Some (ReferenceError "elemid")).
Proof.
  intros Hres. induction elemIds as [| [x flag] l IH]; intros (e & f & Hin & He).
  - destruct Hin.
  - cbn [lookups]. unfold getElemOrFail. rewrite Hres.
    destruct (hasElement page x) eqn:Hx; [| reflexivity].
    apply IH. destruct Hin as [[= -> ->] | Hin]; [congruence |].
    exists e, f. auto.
Qed.

Lemma constructorLookups_ids (elemId : string) (flag : bool) :
  In (elemId, flag) constructorLookups ->
  In elemId ["status"; "compass"; "distance"; "name"; "list"]%string.
Proof.
  unfold constructorLookups. cbn [In].
  intros [H | [H | [H | [H | [H | []]]]]]; injection H as <- _; auto 6.
Qed.

Lemma constructorLookups_flag (elemId : string) :
  In elemId ["status"; "compass"; "distance"; "name"; "list"]%string ->
  exists flag, In (elemId, flag) constructorLookups.
Proof.
  unfold constructorLookups. cbn [In].
  intros [<- | [<- | [<- | [<- | [<- | []]]]]]; eexists; auto 7.
Qed.

(** X21: the outcome of the constructor.  On a page with the five elements
    and a geolocation service the application starts, in its initial state
    and with both subscriptions.  With the five elements and no geolocation
    service the error "Geolocation not available." is written and an
    exception ends the constructor: a reference error where the page does
    not bind [error], else the [Error] made from its value.  With an element
    missing, on a page that does not bind [elemid], a reference error ends
    the constructor before anything is written.  An application that has
    started had the five elements and the service. *)
Theorem construct_outcome (page : Page) :
  ((forall elemId,
      In elemId ["status"; "compass"; "distance"; "name"; "list"]%string ->
      hasElement page elemId = true) ->
   hasGeolocation page = true ->
   construct page =
   Started initial {| orientationListener := true; positionWatch := true |}) /\
  ((forall elemId,
      In elemId ["status"; "compass"; "distance"; "name"; "list"]%string ->
      hasElement page elemId = true) ->
   hasGeolocation page = false ->
   construct page =
   Failed (if resolves page "error"
           then ErrorWith (globalText page "error")
           else ReferenceError "error")
          (Some ("error", "Geolocation not available.")%string)) /\
  ((exists elemId,
      In elemId ["status"; "compass"; "distance"; "name"; "list"]%string /\
      hasElement page elemId = false) ->
   resolves page "elemid" = false ->
   construct page = Failed (ReferenceError "elemid") None) /\
  (forall s subs,
     construct page = Started s subs ->
     hasGeolocation page = true /\
     forall elemId,
       In elemId ["status"; "compass"; "distance"; "name"; "list"]%string ->
       hasElement page elemId = true).
Proof.
  assert (Hfound : (forall elemId,
             In elemId ["status"; "compass"; "distance"; "name"; "list"]%string ->
             hasElement page elemId = true) ->
           lookups page constructorLookups blankApp = (blankApp, None)).
  { intros Hall. apply lookups_all_found.
    intros e f He. apply Hall. exact (constructorLookups_ids e f He). }
  split; [| split; [| split]].
  - intros Hall Hgeo. unfold construct. rewrite (Hfound Hall), Hgeo. reflexivity.
  - intros Hall Hgeo. unfold construct. rewrite (Hfound Hall), Hgeo.
    cbn [negb]. unfold setStatusFatal.
    destruct (resolves page "error"); reflexivity.
  - intros (x & Hin & Hx) Hres. unfold construct.
    destruct (constructorLookups_flag x Hin) as [flag Hflag].
    rewrite (lookups_one_missing page constructorLookups blankApp Hres);
      [reflexivity |].
    exists x, flag. auto.
  - intros s subs Hs.
    assert (Hall : forall elemId,
               In elemId ["status"; "compass"; "distance"; "name"; "list"]%string ->
               hasElement page elemId = true).
    { intros x Hin. destruct (hasElement page x) eqn:Hx; [reflexivity |].
      exfalso. unfold construct in Hs.
      destruct (constructorLookups_flag x Hin) as [flag Hflag].
      assert (Hthrows : exists a e, lookups page constructorLookups blankApp = (a, Some e)).
      { clear Hs. revert Hflag. generalize blankApp. generalize constructorLookups.
        induction l as [| [y g] l IH]; intros a Hflag; [destruct Hflag |].
        cbn [lookups].
        destruct (getElemOrFail page g y a) as [a1 [e |]] eqn:Hg; [eauto |].
        destruct Hflag as [[= -> ->] | Hflag]; [| apply IH; exact Hflag].
        exfalso. unfold getElemOrFail, setStatusFatal in Hg. rewrite Hx in Hg.
        destruct (resolves page "elemid"); [| discriminate].
        destruct flag; [| discriminate].
        destruct (resolves page "error"); discriminate. }
      destruct Hthrows as (a & e & Hl). rewrite Hl in Hs. discriminate. }
    split; [| exact Hall].
    destruct (hasGeolocation page) eqn:Hgeo; [reflexivity |].
    exfalso. unfold construct in Hs. rewrite (Hfound Hall), Hgeo in Hs.
    cbn [negb] in Hs. unfold setStatusFatal in Hs.
    destruct (resolves page "error"); discriminate.
Qed.

Lemma construct_outcome_witness :
  construct Sample.fullPage =
    Started initial {| orientationListener := true; positionWatch := true |} /\
  construct Sample.noGeolocationPage =
    Failed (ReferenceError "error")
           (Some ("error", "Geolocation not available.")%string) /\
  construct Sample.noListPage = Failed (ReferenceError "elemid") None.
Proof.
  assert (Hfive : forall page,
            elementIds page = ["status"; "compass"; "distance"; "name"; "list"]%string ->
            forall elemId,
              In elemId ["status"; "compass"; "distance"; "name"; "list"]%string ->
              hasElement page elemId = true).
  { intros page Hids elemId Hin. unfold hasElement. rewrite Hids.
    cbn [In] in Hin.
    repeat (destruct Hin as [<- | Hin]; [reflexivity |]). destruct Hin. }
  split; [| split].
  - apply (proj1 (construct_outcome Sample.fullPage)).
    + apply Hfive. reflexivity.
    + reflexivity.
  - apply (proj1 (proj2 (construct_outcome Sample.noGeolocationPage))).
    + apply Hfive. reflexivity.
    + reflexivity.
  - apply (proj1 (proj2 (proj2 (construct_outcome Sample.noListPage)))).
    + exists "list"%string. split; [cbn [In]; auto 6 | reflexivity].
    + reflexivity.
Defined.

(** ** The page follows the state *)

Lemma updateUI_inSync (a : Application) : displayInSync (updateUI a).
Proof.
  intros loc pubs Hr.
  pose proof (updateUI_sameFields a) as Hsame.
  rewrite (sameFields_ready _ _ Hsame) in Hr.
  destruct (ready_nonempty a loc pubs Hr) as (_ & _ & Hne).
  destruct (selectedPub_nonempty loc pubs (selectedPubId a) Hne) as [p Hp].
  destruct Hsame as (_ & S2 & _ & S4 & _).
  exists p. rewrite (updateUI_dom a loc pubs p Hr Hp), S2, S4.
  repeat split. exact Hp.
Qed.

(** Writing the status or the flag does not disturb the rest. *)
Lemma inSync_same_display (a b : Application) :
  ready b = ready a ->
  currentHeading b = currentHeading a ->
  selectedPubId b = selectedPubId a ->
  nameDiv (dom b) = nameDiv (dom a) ->
  distanceDiv (dom b) = distanceDiv (dom a) ->
  compassRotation (dom b) = compassRotation (dom a) ->
  pubListElem (dom b) = pubListElem (dom a) ->
  displayInSync a -> displayInSync b.
Proof.
  intros Hready S2 S4 Hn Hd Hc Hl Ha loc pubs Hr.
  rewrite Hready in Hr.
  destruct (Ha loc pubs Hr) as (p & Hp & H1 & H2 & H3 & H4).
  exists p. rewrite Hn, Hd, Hc, Hl, S2, S4. auto.
Qed.

Lemma setStatus_inSync (msg level : string) (a : Application) :
  displayInSync a -> displayInSync (setStatus msg level a).
Proof. apply inSync_same_display; reflexivity. Qed.

Lemma withPending_inSync (flag : bool) (a : Application) :
  displayInSync a -> displayInSync (withPending flag a).
Proof. apply inSync_same_display; reflexivity. Qed.

Lemma setHeading_inSync (alpha : R) (a : Application) :
  displayInSync a -> displayInSync (setHeading alpha a).
Proof.
  intros Ha loc pubs Hr. unfold setHeading in *.
  set (a1 := withHeading (Some (360 - alpha)) a) in *.
  pose proof (updateBearingUI_sameFields a1) as Hsame.
  rewrite (sameFields_ready _ _ Hsame) in Hr.
  assert (Hr0 : ready a = Some (loc, pubs)) by exact Hr.
  destruct (Ha loc pubs Hr0) as (p & Hp & H1 & H2 & _ & H4).
  assert (Hp1 : selectedPub loc pubs (selectedPubId a1) = Some p) by exact Hp.
  destruct Hsame as (_ & S2 & _ & S4 & _).
  exists p. rewrite (updateBearingUI_dom a1 loc pubs p Hr Hp1), S2, S4.
  cbn [nameDiv distanceDiv compassRotation pubListElem].
  repeat split; assumption.
Qed.

Lemma handle_inSync (e : Event) (s s' : System) :
  displayInSync (app s) -> handle e s = Some s' -> displayInSync (app s').
Proof.
  intros Ha Hh. destruct e as [coords | alpha | pub | i r | i body];
    cbn [handle] in Hh.
  - injection Hh as <-. unfold setCoords.
    pose proof (updateUI_inSync (withLocation (Some coords) (app s))) as Hu.
    destruct (movedEnough (currentLocation (app s)) coords);
      [destruct (negb _) |]; cbn [app];
      first [exact Hu | apply withPending_inSync, setStatus_inSync; exact Hu].
  - injection Hh as <-. cbn [app]. apply setHeading_inSync. exact Ha.
  - injection Hh as <-. cbn [app]. apply updateUI_inSync.
  - destruct (nth_error (inflight s) i) as [[origin |] |]; try discriminate.
    assert (Hf : displayInSync (fst (afterFetch r (app s)))).
    { unfold afterFetch. destruct r as [r |]; [| exact Ha].
      destruct (negb (Overpass.ok r)); [| exact Ha].
      apply setStatus_inSync. exact Ha. }
    destruct (afterFetch r (app s)) as [a [|]]; injection Hh as <-; cbn [app fst] in *.
    + exact Hf.
    + apply withPending_inSync. exact Hf.
  - destruct (nth_error (inflight s) i) as [[origin |] |]; try discriminate.
    injection Hh as <-. cbn [app]. apply withPending_inSync.
    unfold afterJson. destruct body as [| elements]; [exact Ha |].
    destruct (mapToPub _); [apply updateUI_inSync | exact Ha].
Qed.

(** X23: the page never lags behind the state.  In every reachable state
    that has a location and a non-empty candidate set, the name, the
    distance, the rotation and the list on the page are the ones computed
    from the current location, heading, candidate set and selection. *)
Theorem display_follows_state (s : System) :
  reachable s -> displayInSync (app s).
Proof.
  induction 1 as [| s s' e _ IH Hh].
  - intros loc pubs Hr. discriminate.
  - exact (handle_inSync e s s' IH Hh).
Qed.

Lemma afterReply_reachable : reachable Sample.afterReply.
Proof.
  apply (reachable_step Scenario.awaitingBody _
           (JsonSettled 0 (Overpass.Json (Some Sample.elements)))).
  - apply awaitingBody_reachable.
  - reflexivity.
Qed.

Lemma afterReply_ready :
  ready (app Sample.afterReply) = Some (Example.origin, Example.pubs).
Proof.
  unfold Sample.afterReply, ready. cbn [app onFinally withPending currentLocation nearbyPubs].
  change (afterJson (Overpass.Json (Some Sample.elements)) (app Scenario.awaitingBody))
    with (updateUI (withPubs (Some Example.pubs) (app Scenario.awaitingBody))).
  destruct (updateUI_sameFields
              (withPubs (Some Example.pubs) (app Scenario.awaitingBody)))
    as (H1 & _ & H3 & _).
  rewrite H1, H3. reflexivity.
Qed.

Lemma display_follows_state_witness :
  ready (app Sample.afterReply) = Some (Example.origin, Example.pubs) /\
  exists p,
    selectedPub Example.origin Example.pubs (selectedPubId (app Sample.afterReply))
      = Some p /\
    nameDiv (dom (app Sample.afterReply)) = Some (displayName p) /\
    distanceDiv (dom (app Sample.afterReply))
      = distanceStr (distanceFrom Example.origin p) /\
    compassRotation (dom (app Sample.afterReply)) =
      Some (shortRelBearing
              (bearingBetween (latitude Example.origin) (longitude Example.origin)
                              (Pub.latitude p) (Pub.longitude p))
              (currentHeading (app Sample.afterReply))) /\
    pubListElem (dom (app Sample.afterReply)) =
      Some (map (createLinkElem Example.origin (selectedPubId (app Sample.afterReply)))
                (toSorted (distanceSort Example.origin) Example.pubs)).
Proof.
  split; [exact afterReply_ready |].
  exact (display_follows_state Sample.afterReply afterReply_reachable
           Example.origin Example.pubs afterReply_ready).
Defined.

(** X24: choosing a pub of the list that has a truthy id makes a pub with
    that id the target shown (the first in the candidate set, should several
    carry the id), checks its button, and sends no request. *)
Theorem radio_change_selects (s : System) (pub : Pub.t) (loc : Coordinates)
    (pubs : list Pub.t) :
  ready (app s) = Some (loc, pubs) ->
  In pub pubs ->
  truthy (Pub.id pub) = true ->
  exists s' target,
    handle (RadioChange pub) s = Some s' /\
    selectedPubId (app s') = Pub.id pub /\
    inflight s' = inflight s /\
    find (fun q => strictEq (Pub.id q) (Pub.id pub)) pubs = Some target /\
    Pub.id target = Pub.id pub /\
    nameDiv (dom (app s')) = Some (displayName target) /\
    distanceDiv (dom (app s')) = distanceStr (distanceFrom loc target) /\
    exists items it,
      pubListElem (dom (app s')) = Some items /\
      In it items /\ item_pub it = target /\ item_checked it = true.
Proof.
  intros Hr Hin Ht.
  set (a1 := withSelected (Pub.id pub) (app s)).
  assert (Hr1 : ready a1 = Some (loc, pubs)) by exact Hr.
  destruct (find (fun q => strictEq (Pub.id q) (Pub.id pub)) pubs) as [target |] eqn:Hf.
  2:{ exfalso. pose proof (find_none _ _ Hf pub Hin) as Hn. simpl in Hn.
      assert (strictEq (Pub.id pub) (Pub.id pub) = true) by (apply strictEq_eq; reflexivity).
      congruence. }
  assert (Hsel : selectedPub loc pubs (selectedPubId a1) = Some target).
  { unfold selectedPub, a1. cbn [selectedPubId withSelected]. rewrite Ht, Hf. reflexivity. }
  destruct (find_some _ _ Hf) as [Hint Hid]. apply strictEq_eq in Hid.
  pose proof (updateUI_dom a1 loc pubs target Hr1 Hsel) as Hdom.
  destruct (updateUI_sameFields a1) as (_ & _ & _ & S4 & _).
  unfold a1 in *. clear a1.
  eexists. exists target. split; [reflexivity |]. cbn [app inflight].
  rewrite Hdom, S4. cbn [nameDiv distanceDiv pubListElem selectedPubId withSelected].
  repeat split; try assumption; try reflexivity.
  destruct (checked_item loc (Pub.id pub) pubs target Hint Hid) as (it & Hit & Hp & Hc).
  eexists. exists it. split; [reflexivity |]. auto.
Qed.

Lemma radio_change_selects_witness :
  exists s' target,
    handle (RadioChange Example.nearPub) Sample.atRest = Some s' /\
    selectedPubId (app s') = IdNum 7 /\
    inflight s' = [] /\
    find (fun q => strictEq (Pub.id q) (IdNum 7)) Example.pubs = Some target /\
    Pub.id target = IdNum 7 /\
    nameDiv (dom (app s')) = Some (displayName target) /\
    distanceDiv (dom (app s')) = distanceStr (distanceFrom Example.origin target) /\
    exists items it,
      pubListElem (dom (app s')) = Some items /\
      In it items /\ item_pub it = target /\ item_checked it = true.
Proof.
  apply (radio_change_selects Sample.atRest Example.nearPub Example.origin Example.pubs).
  - reflexivity.
  - right. left. reflexivity.
  - reflexivity.
Defined.

(** ** A selection of 0 *)

(** C4: the choice of the pub whose id is the number 0.  The change handler
    stores the id and the list checks the button of that pub, and the pub is
    in the candidate set; yet [selectedPub] returns the nearest pub, another
    one, and its name is the one shown. *)
Theorem zero_selection_resolves_to_nearest :
  exists s' : System,
    handle (RadioChange Example.farPub) Sample.atRest = Some s' /\
    selectedPubId (app s') = IdNum 0 /\
    In Example.farPub Example.pubs /\
    Pub.id Example.farPub = IdNum 0 /\
    selectedPub Example.origin Example.pubs (selectedPubId (app s'))
      = Some Example.nearPub /\
    Pub.id Example.nearPub <> IdNum 0 /\
    nameDiv (dom (app s')) = Some (displayName Example.nearPub) /\
    exists items it,
      pubListElem (dom (app s')) = Some items /\
      In it items /\ item_pub it = Example.farPub /\ item_checked it = true.
Proof.
  destruct selection_zero_not_returned as (Hin & Hid & Hsel & Hother).
  assert (Hr : ready Sample.zeroSelected = Some (Example.origin, Example.pubs))
    by reflexivity.
  pose proof (updateUI_dom Sample.zeroSelected Example.origin Example.pubs
                Example.nearPub Hr Hsel) as Hdom.
  destruct (updateUI_sameFields Sample.zeroSelected) as (_ & _ & _ & S4 & _).
  exists {| app := updateUI Sample.zeroSelected; inflight := [] |}.
  split; [reflexivity |]. cbn [app]. rewrite S4, Hdom.
  cbn [nameDiv pubListElem].
  repeat split; try assumption; try reflexivity.
  destruct (checked_item Example.origin (IdNum 0) Example.pubs Example.farPub Hin Hid)
    as (it & Hit & Hp & Hc).
  eexists. exists it. split; [reflexivity |]. auto.
Qed.
